(** * Speech synthesis to playout: handles, synthesis tasks and the output
    orchestrator of [agents/src/pipeline/agent_output.ts].

    The file is a shallow embedding of the TypeScript module.  JavaScript runs
    the module's [async] functions on one thread: each of them runs without
    interruption from one [await] to the next.  An [async] function is
    therefore a state machine whose states are its [await] points, and whose
    transitions are taken when the awaited promise settles.  What settles a
    promise (the TTS engine yielding an audio event, the queue accepting a
    write, the text source yielding a chunk, somebody calling [cancel()] or
    [interrupt()]) is an action of the environment; a run of the program is a
    list of such actions, and every interleaving the event loop can produce
    is one of these lists. *)

From Stdlib Require Import ZArith Lia.
From stdpp Require Import base option list gmap strings.

(** ** Values shared by all components *)

(** [AudioFrame] of [@livekit/rtc-node]: an opaque payload. *)
Definition AudioFrame : Type := nat.

(** A thrown JavaScript [Error], identified by its message. *)
Definition Err : Type := string.

(** An entry of [SynthesisHandle.queue]:
    [AudioFrame | typeof SynthesisHandle.FLUSH_SENTINEL]. *)
Inductive QueueEntry : Type :=
  | Frame (f : AudioFrame)
  | FLUSH_SENTINEL.

(** What iterating a [SynthesizeStream] yields: an audio event carrying one
    frame, or [SynthesizeStream.END_OF_STREAM]. *)
Inductive SynthesizedAudio : Type :=
  | Audio (frame : AudioFrame)
  | END_OF_STREAM.

(** How one [next()] of an async iterator settles inside [for await]: a value,
    the end of the iteration, or a rejection. *)
Inductive IterResult (A : Type) : Type :=
  | Yield (a : A)
  | IterDone
  | IterThrow (e : Err).
Arguments Yield {A} a.
Arguments IterDone {A}.
Arguments IterThrow {A} e.

(** The calls the tasks make on the TTS engine's stream, in call order. *)
Inductive EngineCall : Type :=
  | pushText (text : string)
  | flush
  | endInput.

(** The state of a JavaScript promise. *)
Inductive PromiseState : Type :=
  | Pending
  | Fulfilled
  | Rejected (e : Err).

Global Instance QueueEntry_eq_dec : EqDecision QueueEntry.
Proof. solve_decision. Defined.
Global Instance EngineCall_eq_dec : EqDecision EngineCall.
Proof. solve_decision. Defined.
Global Instance PromiseState_eq_dec : EqDecision PromiseState.
Proof. solve_decision. Defined.

(** Number of Flush Markers among the entries written to a queue. *)
Definition flush_count (q : list QueueEntry) : nat :=
  length (filter (λ x, x = FLUSH_SENTINEL) q).

(** The audio frames among the entries written to a queue, in order. *)
Definition frames_of (q : list QueueEntry) : list AudioFrame :=
  omap (λ x, match x with Frame f => Some f | FLUSH_SENTINEL => None end) q.

(** Run a step function over a list of actions; [None] when an action is not
    enabled in the state it meets. *)
Fixpoint exec {S A : Type} (step : S → A → option S) (s : S) (acts : list A)
  : option S :=
  match acts with
  | [] => Some s
  | a :: rest =>
      match step s a with
      | Some s' => exec step s' rest
      | None => None
      end
  end.

(** ** [stringSynthesisTask] *)

(** The loops of both tasks leave [for await] by [break]; the engine's stream
    is consumed through its [next()] only, as the interface of the spec has
    it, so leaving a loop is not a suspension point of its own. *)

Module StringTask.

(** The [await] points of the executor, and its two ways of ending. *)
Inductive Pc : Type :=
  | AwaitAudio        (* for await (const audio of ttsStream) *)
  | AwaitWrite        (* await writer.write(audio.frame) *)
  | AwaitFlushWrite   (* await writer.write(SynthesisHandle.FLUSH_SENTINEL) *)
  | Returned          (* resolve() was called *)
  | Threw (e : Err).  (* the async executor rejected; nobody observes it *)

Record State : Type := mkState {
  cancelled : bool;               (* let cancelled = false *)
  written : list QueueEntry;      (* writer.write calls, oldest first *)
  engine : list EngineCall;       (* calls on ttsStream, oldest first *)
  pc : Pc;
  promise : PromiseState;         (* the CancellablePromise returned *)
  writerLocked : bool             (* getWriter() .. releaseLock() *)
}.

Inductive Action : Type :=
  | Next (r : IterResult SynthesizedAudio)  (* ttsStream's next() settles *)
  | WriteSettled (r : option Err)           (* the pending write settles *)
  | Cancel.                                 (* cancel() on the task *)

(** The synchronous prefix of the executor, up to the first [await]. *)
Definition stringSynthesisTask (text : string) : State :=
  {| cancelled := false;
     written := [];
     engine := [pushText text; flush; endInput];
     pc := AwaitAudio;
     promise := Pending;
     writerLocked := true |}.

Definition write (x : QueueEntry) (next : Pc) (s : State) : State :=
  {| cancelled := cancelled s;
     written := written s ++ [x];
     engine := engine s;
     pc := next;
     promise := promise s;
     writerLocked := writerLocked s |}.

Definition goto (next : Pc) (s : State) : State :=
  {| cancelled := cancelled s;
     written := written s;
     engine := engine s;
     pc := next;
     promise := promise s;
     writerLocked := writerLocked s |}.

(** [writer.releaseLock(); resolve();] *)
Definition finish (s : State) : State :=
  {| cancelled := cancelled s;
     written := written s;
     engine := engine s;
     pc := Returned;
     promise := Fulfilled;
     writerLocked := false |}.

(** The callback given to [onCancel]: [cancelled = true]. *)
Definition cancel (s : State) : State :=
  {| cancelled := true;
     written := written s;
     engine := engine s;
     pc := pc s;
     promise := promise s;
     writerLocked := writerLocked s |}.

Definition step (s : State) (a : Action) : option State :=
  match a, pc s with
  | Cancel, _ => Some (cancel s)
  | Next (Yield audio), AwaitAudio =>
      match audio with
      | END_OF_STREAM => Some (write FLUSH_SENTINEL AwaitFlushWrite s)
      | Audio frame =>
          if cancelled s
          then Some (write FLUSH_SENTINEL AwaitFlushWrite s)
          else Some (write (Frame frame) AwaitWrite s)
      end
  | Next IterDone, AwaitAudio => Some (write FLUSH_SENTINEL AwaitFlushWrite s)
  | Next (IterThrow e), AwaitAudio => Some (goto (Threw e) s)
  | WriteSettled None, AwaitWrite => Some (goto AwaitAudio s)
  | WriteSettled (Some e), AwaitWrite => Some (goto (Threw e) s)
  | WriteSettled None, AwaitFlushWrite => Some (finish s)
  | WriteSettled (Some e), AwaitFlushWrite => Some (goto (Threw e) s)
  | _, _ => None
  end.

Definition run : State → list Action → option State := exec step.

(** A schedule that lets a task that has not thrown run to its end: the
    engine's output ends and the queue accepts every write. *)
Definition unwind (s : State) : list Action :=
  match pc s with
  | AwaitAudio => [Next IterDone; WriteSettled None]
  | AwaitWrite => [WriteSettled None; Next IterDone; WriteSettled None]
  | AwaitFlushWrite => [WriteSettled None]
  | Returned | Threw _ => []
  end.

(** The schedule of an uninterrupted run in which the engine yields the
    given frames and then its end-of-stream marker, each write being taken
    by the queue before the next event. *)
Definition natural_schedule (frames : list AudioFrame) : list Action :=
  flat_map (λ f, [Next (Yield (Audio f)); WriteSettled None]) frames
    ++ [Next (Yield END_OF_STREAM); WriteSettled None].

(** What the state says about the queue at each point of the task. *)
Definition Inv (s : State) : Prop :=
  match pc s with
  | AwaitAudio | AwaitWrite =>
      promise s = Pending ∧ ∃ fs : list AudioFrame, written s = Frame <$> fs
  | AwaitFlushWrite =>
      promise s = Pending ∧ ∃ fs : list AudioFrame, written s = (Frame <$> fs) ++ [FLUSH_SENTINEL]
  | Returned =>
      promise s = Fulfilled ∧ ∃ fs : list AudioFrame, written s = (Frame <$> fs) ++ [FLUSH_SENTINEL]
  | Threw _ =>
      promise s = Pending ∧ flush_count (written s) ≤ 1
  end.

(** The loop no longer forwards frames: the flag is set, or the loop was
    left. *)
Definition stopped (s : State) : bool :=
  cancelled s ||
  match pc s with
  | AwaitAudio | AwaitWrite => false
  | AwaitFlushWrite | Returned | Threw _ => true
  end.

(** The frames the engine yields in a schedule while the loop forwards: up
    to the first [cancel()], end-of-stream marker, end or failure of the
    iteration, or failed write. *)
Fixpoint frames_accepted (acts : list Action) : list AudioFrame :=
  match acts with
  | Next (Yield (Audio f)) :: rest => f :: frames_accepted rest
  | WriteSettled None :: rest => frames_accepted rest
  | _ => []
  end.

(** The writer is locked from [getWriter()] until the task returns. *)
Definition LockInv (s : State) : Prop :=
  match pc s with
  | Returned => writerLocked s = false
  | _ => writerLocked s = true
  end.

End StringTask.

(** ** [streamSynthesisTask] *)

Module StreamTask.

(** The [await] points of [readGeneratedAudio], the audio relay. *)
Inductive RelayPc : Type :=
  | RAwaitAudio
  | RAwaitWrite
  | RAwaitFlushWrite
  | RReturned
  | RThrew (e : Err).

(** The [await] point of the executor's own loop, the text feed. *)
Inductive FeedPc : Type :=
  | FAwaitText        (* for await (const text of stream) *)
  | FReturned         (* resolve() was called *)
  | FThrew (e : Err).

Record State : Type := mkState {
  cancelled : bool;
  written : list QueueEntry;
  engine : list EngineCall;
  relay : RelayPc;
  feed : FeedPc;
  promise : PromiseState;
  writerLocked : bool
}.

Inductive Action : Type :=
  | Next (r : IterResult SynthesizedAudio)  (* ttsStream's next() settles *)
  | WriteSettled (r : option Err)           (* the relay's write settles *)
  | Text (r : IterResult string)            (* the text source's next() settles *)
  | Cancel.                                 (* cancel() on the task *)

(** The synchronous prefix: [readGeneratedAudio()] is called, not awaited,
    and runs up to its first [await]; then the feed loop reaches its own. *)
Definition streamSynthesisTask : State :=
  {| cancelled := false;
     written := [];
     engine := [];
     relay := RAwaitAudio;
     feed := FAwaitText;
     promise := Pending;
     writerLocked := true |}.

Definition write (x : QueueEntry) (next : RelayPc) (s : State) : State :=
  {| cancelled := cancelled s;
     written := written s ++ [x];
     engine := engine s;
     relay := next;
     feed := feed s;
     promise := promise s;
     writerLocked := writerLocked s |}.

Definition relay_goto (next : RelayPc) (s : State) : State :=
  {| cancelled := cancelled s;
     written := written s;
     engine := engine s;
     relay := next;
     feed := feed s;
     promise := promise s;
     writerLocked := writerLocked s |}.

(** [writer.releaseLock();] ends [readGeneratedAudio]. *)
Definition relay_finish (s : State) : State :=
  {| cancelled := cancelled s;
     written := written s;
     engine := engine s;
     relay := RReturned;
     feed := feed s;
     promise := promise s;
     writerLocked := false |}.

(** [ttsStream.pushText(text);] and back to the head of the loop. *)
Definition push (text : string) (s : State) : State :=
  {| cancelled := cancelled s;
     written := written s;
     engine := engine s ++ [pushText text];
     relay := relay s;
     feed := FAwaitText;
     promise := promise s;
     writerLocked := writerLocked s |}.

(** [ttsStream.flush(); ttsStream.endInput(); resolve();] *)
Definition feed_finish (s : State) : State :=
  {| cancelled := cancelled s;
     written := written s;
     engine := engine s ++ [flush; endInput];
     relay := relay s;
     feed := FReturned;
     promise := Fulfilled;
     writerLocked := writerLocked s |}.

Definition feed_throw (e : Err) (s : State) : State :=
  {| cancelled := cancelled s;
     written := written s;
     engine := engine s;
     relay := relay s;
     feed := FThrew e;
     promise := promise s;
     writerLocked := writerLocked s |}.

Definition cancel (s : State) : State :=
  {| cancelled := true;
     written := written s;
     engine := engine s;
     relay := relay s;
     feed := feed s;
     promise := promise s;
     writerLocked := writerLocked s |}.

(** One transition of [readGeneratedAudio]. *)
Definition readGeneratedAudio (s : State) (a : Action) : option State :=
  match a, relay s with
  | Next (Yield audio), RAwaitAudio =>
      if cancelled s
      then Some (write FLUSH_SENTINEL RAwaitFlushWrite s)
      else match audio with
           | END_OF_STREAM => Some (write FLUSH_SENTINEL RAwaitFlushWrite s)
           | Audio frame => Some (write (Frame frame) RAwaitWrite s)
           end
  | Next IterDone, RAwaitAudio => Some (write FLUSH_SENTINEL RAwaitFlushWrite s)
  | Next (IterThrow e), RAwaitAudio => Some (relay_goto (RThrew e) s)
  | WriteSettled None, RAwaitWrite => Some (relay_goto RAwaitAudio s)
  | WriteSettled (Some e), RAwaitWrite => Some (relay_goto (RThrew e) s)
  | WriteSettled None, RAwaitFlushWrite => Some (relay_finish s)
  | WriteSettled (Some e), RAwaitFlushWrite => Some (relay_goto (RThrew e) s)
  | _, _ => None
  end.

(** One transition of the feed loop and of what follows it. *)
Definition feedText (s : State) (r : IterResult string) : option State :=
  match feed s with
  | FAwaitText =>
      match r with
      | Yield text => if cancelled s then Some (feed_finish s) else Some (push text s)
      | IterDone => Some (feed_finish s)
      | IterThrow e => Some (feed_throw e s)
      end
  | _ => None
  end.

Definition step (s : State) (a : Action) : option State :=
  match a with
  | Cancel => Some (cancel s)
  | Text r => feedText s r
  | Next _ | WriteSettled _ => readGeneratedAudio s a
  end.

Definition run : State → list Action → option State := exec step.

(** The task has nothing left to run: its promise is resolved and the
    relay it started has returned. *)
Definition completed (s : State) : Prop :=
  promise s = Fulfilled ∧ relay s = RReturned.

(** A schedule that lets the relay of a task run to its end, as
    [StringTask.unwind] does, after the text source has ended. *)
Definition unwind (s : State) : list Action :=
  match feed s with
  | FAwaitText => [Text IterDone]
  | FReturned | FThrew _ => []
  end ++
  match relay s with
  | RAwaitAudio => [Next IterDone; WriteSettled None]
  | RAwaitWrite => [WriteSettled None; Next IterDone; WriteSettled None]
  | RAwaitFlushWrite => [WriteSettled None]
  | RReturned | RThrew _ => []
  end.

(** The chunks the feed loop receives from the text source in a schedule
    before [cancel()] is called. *)
Fixpoint chunks_before_cancel (acts : list Action) : list string :=
  match acts with
  | [] => []
  | Cancel :: _ => []
  | Text (Yield text) :: rest => text :: chunks_before_cancel rest
  | _ :: rest => chunks_before_cancel rest
  end.

(** The control signals the feed has sent to the engine. *)
Definition feed_signals (p : FeedPc) : list EngineCall :=
  match p with
  | FReturned => [flush; endInput]
  | FAwaitText | FThrew _ => []
  end.

Definition Inv (s : State) : Prop :=
  (promise s = Fulfilled ↔ feed s = FReturned) ∧
  (promise s = Pending ∨ promise s = Fulfilled) ∧
  match relay s with
  | RAwaitAudio | RAwaitWrite =>
      ∃ fs : list AudioFrame, written s = Frame <$> fs
  | RAwaitFlushWrite | RReturned =>
      ∃ fs : list AudioFrame, written s = (Frame <$> fs) ++ [FLUSH_SENTINEL]
  | RThrew _ => flush_count (written s) ≤ 1
  end.

(** The relay no longer forwards frames. *)
Definition relay_stopped (s : State) : bool :=
  cancelled s ||
  match relay s with
  | RAwaitAudio | RAwaitWrite => false
  | RAwaitFlushWrite | RReturned | RThrew _ => true
  end.

(** The frames the engine yields in a schedule while the relay forwards;
    what the text source does in between is of no account. *)
Fixpoint frames_accepted (acts : list Action) : list AudioFrame :=
  match acts with
  | Next (Yield (Audio f)) :: rest => f :: frames_accepted rest
  | WriteSettled None :: rest => frames_accepted rest
  | Text _ :: rest => frames_accepted rest
  | _ => []
  end.

Definition is_text (a : Action) : bool :=
  match a with Text _ => true | _ => false end.

(** The writer is locked until the relay returns. *)
Definition LockInv (s : State) : Prop :=
  match relay s with
  | RReturned => writerLocked s = false
  | _ => writerLocked s = true
  end.

End StreamTask.

(** ** [SynthesisHandle] *)

(** [SpeechSource = AsyncIterable<string> | string | Promise<string>].  A
    promise is given by how it settles; the chunks of an iterable arrive as
    [StreamTask.Text] actions. *)
Inductive SpeechSource : Type :=
  | SrcString (text : string)
  | SrcPromise (r : Err + string)
  | SrcIterable.

Module Handle.

(** A reference to a [PlayoutHandle] object of the playout subsystem. *)
Definition PlayoutHandle : Type := nat.

(** Modelled from the spec: [Future] of [utils.js], which is not part of the
    sources at hand.  The spec describes it as a one-shot monotonic signal:
    a single-assignment flag, initially unset, with no reset operation.
    [done] is the flag and [resolve] sets it. *)
Record Future : Type := mkFuture { done : bool }.

Definition Future_resolve (f : Future) : Future := {| done := true |}.

Record SynthesisHandle : Type := mkHandle {
  speechId : string;
  ttsSource : SpeechSource;
  playHandle : option PlayoutHandle;   (* #playHandle?: PlayoutHandle *)
  intFut : Future
}.

(** What a method of the handle does to the world outside its own fields,
    and the assignments to [#playHandle], in program order. *)
Inductive Effect : Type :=
  | EPlayoutPlay (id : string)              (* #agentPlayout.play(id, queue.readable) *)
  | EAssignPlayHandle (ph : PlayoutHandle)  (* this.#playHandle = ... *)
  | ELogDebug (id : string)                 (* #logger.child(..).debug(..) *)
  | EPlayHandleInterrupt (ph : PlayoutHandle)
  | EIntFutResolve.                         (* this.intFut.resolve() *)

Global Instance Effect_eq_dec : EqDecision Effect.
Proof. solve_decision. Defined.

Definition is_assign (e : Effect) : bool :=
  match e with EAssignPlayHandle _ => true | _ => false end.

Definition is_registration (e : Effect) : bool :=
  match e with EPlayoutPlay _ => true | _ => false end.

Definition is_resolve (e : Effect) : bool :=
  match e with EIntFutResolve => true | _ => false end.

Definition is_forward (e : Effect) : bool :=
  match e with EPlayHandleInterrupt _ => true | _ => false end.

(** The playout handle that was assigned to [#playHandle] last, if any. *)
Definition last_assigned (tr : list Effect) : option PlayoutHandle :=
  last (omap (λ e, match e with EAssignPlayHandle ph => Some ph | _ => None end) tr).

(** The error [play()] throws on an interrupted handle; the spec calls it
    InterruptedError. *)
Definition InterruptedError : Err := "synthesis was interrupted"%string.

Section WithPlayout.

(** The playout subsystem ([agent_playout.ts]) is an external collaborator:
    its state is abstract, [agentPlayout_play] is [AgentPlayout.play]
    (which returns a playout handle or throws) and [playHandle_interrupt]
    is [PlayoutHandle.interrupt]. *)
Context {Playout : Type}.
Variable agentPlayout_play : string → Playout → (Err + PlayoutHandle) * Playout.
Variable playHandle_interrupt : PlayoutHandle → Playout → Playout.

Record World : Type := mkWorld {
  handle : SynthesisHandle;
  playout : Playout;
  trace : list Effect
}.

(** [constructor(speechId, ttsSource, agentPlayout, tts)] *)
Definition new (id : string) (src : SpeechSource) (p : Playout) : World :=
  {| handle := {| speechId := id; ttsSource := src; playHandle := None;
                  intFut := {| done := false |} |};
     playout := p;
     trace := [] |}.

(** [get validated] *)
Definition validated (w : World) : bool :=
  match playHandle (handle w) with Some _ => true | None => false end.

(** [get interrupted] *)
Definition interrupted (w : World) : bool := done (intFut (handle w)).

Definition set_playHandle (ph : PlayoutHandle) (h : SynthesisHandle) : SynthesisHandle :=
  {| speechId := speechId h; ttsSource := ttsSource h; playHandle := Some ph;
     intFut := intFut h |}.

Definition resolve_intFut (h : SynthesisHandle) : SynthesisHandle :=
  {| speechId := speechId h; ttsSource := ttsSource h; playHandle := playHandle h;
     intFut := Future_resolve (intFut h) |}.

(** [play(): PlayoutHandle] *)
Definition play (w : World) : (Err + PlayoutHandle) * World :=
  if interrupted w then (inl InterruptedError, w)
  else
    let id := speechId (handle w) in
    match agentPlayout_play id (playout w) with
    | (inl e, p') =>
        (inl e, {| handle := handle w; playout := p';
                   trace := trace w ++ [EPlayoutPlay id] |})
    | (inr ph, p') =>
        (inr ph, {| handle := set_playHandle ph (handle w); playout := p';
                    trace := trace w ++ [EPlayoutPlay id; EAssignPlayHandle ph] |})
    end.

(** [this.#playHandle?.interrupt()] *)
Definition forward_interrupt (w : World) : World :=
  match playHandle (handle w) with
  | Some ph =>
      {| handle := handle w; playout := playHandle_interrupt ph (playout w);
         trace := trace w ++ [EPlayHandleInterrupt ph] |}
  | None => w
  end.

Definition log_debug (w : World) : World :=
  {| handle := handle w; playout := playout w;
     trace := trace w ++ [ELogDebug (speechId (handle w))] |}.

Definition set_interrupt_signal (w : World) : World :=
  {| handle := resolve_intFut (handle w); playout := playout w;
     trace := trace w ++ [EIntFutResolve] |}.

(** [interrupt()] *)
Definition interrupt (w : World) : (Err + unit) * World :=
  if interrupted w then (inr (), w)
  else (inr (), set_interrupt_signal (forward_interrupt (log_debug w))).

(** Calls a user of the handle can make, and their effect on the world. *)
Inductive Call : Type := CallPlay | CallInterrupt.

Definition call (w : World) (c : Call) : World :=
  match c with
  | CallPlay => (play w).2
  | CallInterrupt => (interrupt w).2
  end.

Definition calls (w : World) (cs : list Call) : World := foldl call w cs.

Definition is_play (c : Call) : bool :=
  match c with CallPlay => true | CallInterrupt => false end.

(** How many of the calls are calls to [play()]. *)
Definition play_calls (cs : list Call) : nat := length (filter is_play cs).

(** How many times [#playHandle] was assigned, and how many times the
    queue's read side was handed to the playout subsystem. *)
Definition assignments (w : World) : nat := length (filter is_assign (trace w)).
Definition registrations (w : World) : nat := length (filter is_registration (trace w)).

(** How many times [intFut.resolve()] was called, and how many times an
    interruption was forwarded to a playout handle. *)
Definition resolutions (w : World) : nat := length (filter is_resolve (trace w)).
Definition forwards (w : World) : nat := length (filter is_forward (trace w)).

(** [#playHandle] is the handle assigned last, and an interruption was only
    ever forwarded to it, by the call that interrupted the handle. *)
Definition ForwardInv (w : World) : Prop :=
  playHandle (handle w) = last_assigned (trace w) ∧
  ∀ ph, EPlayHandleInterrupt ph ∈ trace w →
        interrupted w = true ∧ playHandle (handle w) = Some ph.

(** The interrupt signal was resolved once if it is set and never
    otherwise, and an interruption is forwarded at most as often. *)
Definition OneShotInv (w : World) : Prop :=
  resolutions w = (if interrupted w then 1 else 0) ∧ forwards w ≤ resolutions w.

(** Calls to [play()] among [cs] that do not throw, from world [w]. *)
Fixpoint successful_plays (w : World) (cs : list Call) : nat :=
  match cs with
  | [] => 0
  | c :: rest =>
      (match c, (play w).1 with
       | CallPlay, inr _ => 1
       | _, _ => 0
       end) + successful_plays (call w c) rest
  end.

End WithPlayout.

(** Modelled from the spec: a playout subsystem that accepts a speech
    identifier with the readable side of a queue and returns a playout
    handle, whose [interrupt()] stops playback of that segment.  Its state
    is the list of segments, each with its interrupted flag; a handle is
    the index of its segment. *)
Definition SimplePlayout : Type := list (string * bool).

Definition simple_play (id : string) (p : SimplePlayout)
  : (Err + PlayoutHandle) * SimplePlayout :=
  (inr (length p), p ++ [(id, false)]).

Definition simple_interrupt (ph : PlayoutHandle) (p : SimplePlayout) : SimplePlayout :=
  alter (λ seg, (seg.1, true)) ph p.

(** A playout subsystem whose [play] always throws. *)
Definition broken_play (id : string) (p : SimplePlayout)
  : (Err + PlayoutHandle) * SimplePlayout :=
  (inl "playout failed"%string, p).

End Handle.

(** ** [AgentOutput.#synthesize]: the supervising task of one handle *)

Module Supervisor.

(** The synthesis task the supervisor started, of either variant. *)
Inductive Variant : Type :=
  | StringVariant (t : StringTask.State)
  | StreamVariant (t : StreamTask.State).

Definition variant_promise (v : Variant) : PromiseState :=
  match v with
  | StringVariant t => StringTask.promise t
  | StreamVariant t => StreamTask.promise t
  end.

Definition variant_cancelled (v : Variant) : bool :=
  match v with
  | StringVariant t => StringTask.cancelled t
  | StreamVariant t => StreamTask.cancelled t
  end.

Definition variant_written (v : Variant) : list QueueEntry :=
  match v with
  | StringVariant t => StringTask.written t
  | StreamVariant t => StreamTask.written t
  end.

(** The variant still has code to run: a loop of it is suspended at an
    [await]. *)
Definition variant_running (v : Variant) : bool :=
  match v with
  | StringVariant t =>
      match StringTask.pc t with
      | StringTask.Returned | StringTask.Threw _ => false
      | _ => true
      end
  | StreamVariant t =>
      match StreamTask.relay t, StreamTask.feed t with
      | (StreamTask.RReturned | StreamTask.RThrew _),
        (StreamTask.FReturned | StreamTask.FThrew _) => false
      | _, _ => true
      end
  end.

(** The error with which a loop of the variant ended, if one did. *)
Definition variant_error (v : Variant) : option Err :=
  match v with
  | StringVariant t =>
      match StringTask.pc t with StringTask.Threw e => Some e | _ => None end
  | StreamVariant t =>
      match StreamTask.feed t, StreamTask.relay t with
      | StreamTask.FThrew e, _ => Some e
      | _, StreamTask.RThrew e => Some e
      | _, _ => None
      end
  end.

(** Modelled from the spec: [CancellablePromise.cancel()] of [utils.js],
    which is not part of the sources at hand.  The spec describes a task as
    a cancellable unit of work with a cancellation request method;
    raising cancellation sets the flag the task observes at its
    checkpoints.  Here the request runs the callback the task's executor
    gave to [onCancel]. *)
Definition variant_cancel (v : Variant) : Variant :=
  match v with
  | StringVariant t => StringVariant (StringTask.cancel t)
  | StreamVariant t => StreamVariant (StreamTask.cancel t)
  end.

(** Modelled from the spec: [gracefullyCancel] of [utils.js], which is not
    part of the sources at hand.  Graceful cancellation signals a request
    to stop and waits for the unit of work to reach its cleanup point
    before considering it finished: the call requests cancellation at once
    and returns a promise, still pending when the call returns, that
    settles when the task has settled.  The result is the task after the
    request, with the state of the returned promise. *)
Definition gracefullyCancel (v : Variant) : Variant * PromiseState :=
  (variant_cancel v, Pending).

Inductive Pc : Type :=
  | AwaitSource       (* await handle.ttsSource *)
  | AwaitRace         (* await Promise.any([task, handle.intFut.await]) *)
  | Returned          (* resolve() was called *)
  | Threw (e : Err).

Record State : Type := mkState {
  ttsSource : SpeechSource;      (* handle.ttsSource *)
  intFutDone : bool;             (* handle.intFut.done *)
  task : option Variant;         (* let task: CancellablePromise<void> *)
  pc : Pc;
  promise : PromiseState;        (* the CancellablePromise returned *)
  isCancelled : bool             (* cancel() was called on it *)
}.

Inductive Action : Type :=
  | SourceSettled                       (* handle.ttsSource is available *)
  | Interrupt                           (* handle.interrupt() sets intFut *)
  | Cancel                              (* cancel() on the supervising task *)
  | StringAct (a : StringTask.Action)
  | StreamAct (a : StreamTask.Action)
  | RaceSettled.                        (* the Promise.any is fulfilled *)

(** [#synthesize(handle)]: the executor suspends at once on the source. *)
Definition synthesize_task (src : SpeechSource) : State :=
  {| ttsSource := src; intFutDone := false; task := None; pc := AwaitSource;
     promise := Pending; isCancelled := false |}.

Definition with_task (v : Variant) (s : State) : State :=
  {| ttsSource := ttsSource s; intFutDone := intFutDone s; task := Some v;
     pc := pc s; promise := promise s; isCancelled := isCancelled s |}.

(** [typeof ttsSource === 'string'] chooses the variant; then [onCancel] is
    registered and the race awaited. *)
Definition source_settled (s : State) : State :=
  let launch v :=
    {| ttsSource := ttsSource s; intFutDone := intFutDone s; task := Some v;
       pc := AwaitRace; promise := promise s; isCancelled := isCancelled s |} in
  let throw e :=
    {| ttsSource := ttsSource s; intFutDone := intFutDone s; task := None;
       pc := Threw e; promise := promise s; isCancelled := isCancelled s |} in
  match ttsSource s with
  | SrcString text => launch (StringVariant (StringTask.stringSynthesisTask text))
  | SrcPromise (inr text) => launch (StringVariant (StringTask.stringSynthesisTask text))
  | SrcPromise (inl e) => throw e
  | SrcIterable => launch (StreamVariant StreamTask.streamSynthesisTask)
  end.

Definition interrupt (s : State) : State :=
  {| ttsSource := ttsSource s; intFutDone := true; task := task s;
     pc := pc s; promise := promise s; isCancelled := isCancelled s |}.

(** [cancel()] on the supervising task runs [() => { gracefullyCancel(task) }]
    once that callback is registered, which is when [task] is set. *)
Definition cancel (s : State) : State :=
  {| ttsSource := ttsSource s; intFutDone := intFutDone s;
     task := (λ v, (gracefullyCancel v).1) <$> task s;
     pc := pc s; promise := promise s; isCancelled := true |}.

(** The [Promise.any] is fulfilled once the variant's promise or the
    interrupt signal is. *)
Definition race_decided (s : State) (v : Variant) : bool :=
  bool_decide (variant_promise v = Fulfilled) || intFutDone s.

(** [finally { if (handle.intFut.done) { gracefullyCancel(task); } } resolve();]
    The promise [gracefullyCancel] returns is not awaited. *)
Definition race_settled (s : State) (v : Variant) : State :=
  let v' := if intFutDone s then (gracefullyCancel v).1 else v in
  {| ttsSource := ttsSource s; intFutDone := intFutDone s; task := Some v';
     pc := Returned; promise := Fulfilled; isCancelled := isCancelled s |}.

Definition step (s : State) (a : Action) : option State :=
  match a with
  | Interrupt => Some (interrupt s)
  | Cancel => Some (cancel s)
  | SourceSettled =>
      match pc s with
      | AwaitSource => Some (source_settled s)
      | _ => None
      end
  | StringAct StringTask.Cancel => None
  | StringAct a' =>
      match task s with
      | Some (StringVariant t) =>
          t' ← StringTask.step t a'; Some (with_task (StringVariant t') s)
      | _ => None
      end
  | StreamAct StreamTask.Cancel => None
  | StreamAct a' =>
      match task s with
      | Some (StreamVariant t) =>
          t' ← StreamTask.step t a'; Some (with_task (StreamVariant t') s)
      | _ => None
      end
  | RaceSettled =>
      match pc s, task s with
      | AwaitRace, Some v =>
          if race_decided s v then Some (race_settled s v) else None
      | _, _ => None
      end
  end.

Definition run : State → list Action → option State := exec step.

(** An error was raised by the engine's stream or by the queue inside the
    task the supervisor started. *)
Definition failed_with (s : State) (e : Err) : Prop :=
  ∃ v, task s = Some v ∧ variant_error v = Some e.

(** The variant the supervisor started is still running. *)
Definition task_running (s : State) : bool :=
  match task s with Some v => variant_running v | None => false end.

Definition VariantInv (v : Variant) : Prop :=
  match v with
  | StringVariant t => StringTask.Inv t
  | StreamVariant t => StreamTask.Inv t
  end.

Definition Inv (s : State) : Prop :=
  match pc s with
  | AwaitSource | Threw _ => promise s = Pending ∧ task s = None
  | AwaitRace => promise s = Pending ∧ ∃ v, task s = Some v ∧ VariantInv v
  | Returned =>
      promise s = Fulfilled ∧
      ∃ v, task s = Some v ∧ VariantInv v ∧
           (variant_promise v = Fulfilled ∨ intFutDone s = true)
  end.

(** The variant [#synthesize] launches for a source, with what the variant
    told the engine at its launch. *)
Definition variant_for (src : SpeechSource) (v : Variant) : Prop :=
  match src, v with
  | SrcString text, StringVariant t
  | SrcPromise (inr text), StringVariant t =>
      StringTask.engine t = [pushText text; flush; endInput]
  | SrcIterable, StreamVariant _ => True
  | _, _ => False
  end.

(** The source of a task is the one it was created with, and its variant,
    once launched, is the one of that source. *)
Definition SourceInv (src : SpeechSource) (s : State) : Prop :=
  ttsSource s = src ∧
  (pc s = AwaitSource ∨ (∃ e, pc s = Threw e ∧ src = SrcPromise (inl e)) ∨
   ∃ v, task s = Some v) ∧
  ∀ v, task s = Some v → variant_for src v.

(** When the supervising task has resolved, the task it supervises has
    resolved or has been asked to cancel. *)
Definition ResolvedInv (s : State) : Prop :=
  Inv s ∧
  match pc s with
  | Returned =>
      ∃ v, task s = Some v ∧
           (variant_promise v = Fulfilled ∨ variant_cancelled v = true)
  | _ => True
  end.

End Supervisor.

(** ** [AgentOutput] *)

Module AgentOutput.

(** A reference to a supervising task: its index in the heap of tasks. *)
Abbreviation TaskRef := nat.

Record State : Type := mkState {
  tasks : list TaskRef;               (* #tasks: CancellablePromise<void>[] *)
  heap : list Supervisor.State;       (* the task objects, by reference *)
  finallyRan : gset TaskRef;          (* task.finally callbacks that ran *)
  closing : option (list TaskRef);    (* the Promise.all of a pending close() *)
  closeReturned : bool
}.

Inductive Action : Type :=
  | Synthesize (src : SpeechSource)             (* synthesize(speechId, src) *)
  | Task (t : TaskRef) (a : Supervisor.Action)  (* something happens to task t *)
  | Finally (t : TaskRef)                       (* t's finally callback runs *)
  | Close                                       (* close() is called *)
  | CloseReturn.                                (* close()'s await resumes *)

(** [new AgentOutput(agentPlayout, tts)] *)
Definition new : State :=
  {| tasks := []; heap := []; finallyRan := ∅; closing := None;
     closeReturned := false |}.

(** [Array.prototype.indexOf]: the first index of the task, or -1. *)
Definition indexOf (t : TaskRef) (l : list TaskRef) : Z :=
  match list_find (λ x, x = t) l with
  | Some (i, _) => Z.of_nat i
  | None => (-1)%Z
  end.

(** [Array.prototype.splice(start)] with its delete count omitted: every
    element from [start] to the end is removed; a negative [start] counts
    from the end.  The result is the array that remains. *)
Definition splice {A : Type} (start : Z) (l : list A) : list A :=
  let len := Z.of_nat (length l) in
  let from := if (start <? 0)%Z then Z.max (len + start) 0 else Z.min start len in
  take (Z.to_nat from) l.

(** [synthesize(speechId, ttsSource)]: the task is launched and pushed. *)
Definition synthesize (src : SpeechSource) (s : State) : State :=
  {| tasks := tasks s ++ [length (heap s)];
     heap := heap s ++ [Supervisor.synthesize_task src];
     finallyRan := finallyRan s;
     closing := closing s;
     closeReturned := closeReturned s |}.

(** [() => this.#tasks.splice(this.#tasks.indexOf(task))] *)
Definition on_finally (t : TaskRef) (s : State) : State :=
  {| tasks := splice (indexOf t (tasks s)) (tasks s);
     heap := heap s;
     finallyRan := {[t]} ∪ finallyRan s;
     closing := closing s;
     closeReturned := closeReturned s |}.

(** [this.#tasks.forEach((task) => task.cancel()); await Promise.all(this.#tasks);]
    up to the [await]. *)
Definition close (s : State) : State :=
  {| tasks := tasks s;
     heap := foldl (λ h t, alter Supervisor.cancel t h) (heap s) (tasks s);
     finallyRan := finallyRan s;
     closing := Some (tasks s);
     closeReturned := closeReturned s |}.

Definition settled (s : State) (t : TaskRef) : bool :=
  match heap s !! t with
  | Some task => bool_decide (Supervisor.promise task ≠ Pending)
  | None => false
  end.

Definition fulfilled (s : State) (t : TaskRef) : bool :=
  match heap s !! t with
  | Some task => bool_decide (Supervisor.promise task = Fulfilled)
  | None => false
  end.

(** The task was launched and its promise is not settled. *)
Definition live (s : State) (t : TaskRef) : bool :=
  match heap s !! t with
  | Some task => bool_decide (Supervisor.promise task = Pending)
  | None => false
  end.

Definition close_return (s : State) : State :=
  {| tasks := tasks s; heap := heap s; finallyRan := finallyRan s;
     closing := closing s; closeReturned := true |}.

Definition step (s : State) (a : Action) : option State :=
  match a with
  | Synthesize src => Some (synthesize src s)
  | Task t Supervisor.Cancel => None
  | Task t a' =>
      task ← heap s !! t;
      task' ← Supervisor.step task a';
      Some {| tasks := tasks s; heap := <[t := task']> (heap s);
              finallyRan := finallyRan s; closing := closing s;
              closeReturned := closeReturned s |}
  | Finally t =>
      if settled s t && bool_decide (t ∉ finallyRan s)
      then Some (on_finally t s) else None
  | Close =>
      match closing s with
      | None => Some (close s)
      | Some _ => None
      end
  | CloseReturn =>
      match closing s with
      | Some awaited =>
          if negb (closeReturned s) &&
             forallb (λ t, fulfilled s t && bool_decide (t ∈ finallyRan s)) awaited
          then Some (close_return s) else None
      | None => None
      end
  end.

Definition run : State → list Action → option State := exec step.


(** A task whose [finally] callback ran is no longer in the list, and only
    launched tasks have had their callback run. *)
Definition Inv (s : State) : Prop :=
  (∀ t, t ∈ tasks s → t ∉ finallyRan s) ∧
  (∀ t, t ∈ finallyRan s → t < length (heap s)) ∧
  (∀ t, t ∈ tasks s → t < length (heap s)).

End AgentOutput.

(** ** General lemmas *)

Lemma exec_app {S A : Type} (step : S → A → option S) (s : S) (xs ys : list A) :
  exec step s (xs ++ ys) = exec step s xs ≫= λ s', exec step s' ys.
Proof.
  revert s. induction xs as [|x xs IH]; intros s; simpl; [done|].
  destruct (step s x); simpl; [apply IH | done].
Qed.

Lemma exec_invariant {S A : Type} (step : S → A → option S) (P : S → Prop) :
  (∀ s a s', P s → step s a = Some s' → P s') →
  ∀ acts s s', P s → exec step s acts = Some s' → P s'.
Proof.
  intros Hstep acts. induction acts as [|a acts IH]; intros s s' HP Hrun; simpl in Hrun.
  - by simplify_eq.
  - destruct (step s a) as [s1|] eqn:E; [|done]. eauto.
Qed.

Lemma flush_count_frames (fs : list AudioFrame) : flush_count (Frame <$> fs) = 0.
Proof.
  unfold flush_count. induction fs as [|f fs IH]; simpl; [done|].
  rewrite filter_cons_False; [exact IH | discriminate].
Qed.

Lemma flush_count_app (q1 q2 : list QueueEntry) :
  flush_count (q1 ++ q2) = flush_count q1 + flush_count q2.
Proof. unfold flush_count. by rewrite filter_app, length_app. Qed.

Lemma flush_count_terminal (fs : list AudioFrame) :
  flush_count ((Frame <$> fs) ++ [FLUSH_SENTINEL]) = 1.
Proof. rewrite flush_count_app, flush_count_frames. reflexivity. Qed.

(** ** The whole-string task *)

Lemma StringTask_start_inv (text : string) :
  StringTask.Inv (StringTask.stringSynthesisTask text).
Proof. split; [done|]. by exists []. Qed.

Lemma StringTask_step_inv (s : StringTask.State) (a : StringTask.Action) (s' : StringTask.State) :
  StringTask.Inv s → StringTask.step s a = Some s' → StringTask.Inv s'.
Proof.
  destruct s as [c w e p pr l]. unfold StringTask.Inv, StringTask.step. simpl.
  intros HI Hs.
  destruct a as [[[frame|]| |err]|[err|]|]; destruct p; simpl in *;
    try destruct c; simplify_eq; simpl;
    try (destruct HI as [-> [fs ->]]); try (destruct HI as [-> HI]);
    try (split; [done|]);
    try (by exists fs);
    try (by exists (fs ++ [frame]); rewrite fmap_app);
    try (rewrite ?flush_count_terminal, ?flush_count_frames; lia);
    try done.
Qed.

Lemma StringTask_reachable_inv (text : string) (acts : list StringTask.Action) (s : StringTask.State) :
  StringTask.run (StringTask.stringSynthesisTask text) acts = Some s → StringTask.Inv s.
Proof.
  apply (exec_invariant StringTask.step StringTask.Inv StringTask_step_inv).
  apply StringTask_start_inv.
Qed.

Lemma StringTask_inv_flush_count (s : StringTask.State) :
  StringTask.Inv s → flush_count (StringTask.written s) ≤ 1.
Proof.
  unfold StringTask.Inv. destruct (StringTask.pc s); intros [_ H];
    try destruct H as [fs ->];
    rewrite ?flush_count_terminal, ?flush_count_frames; lia.
Qed.

(** Cancelled or not, a whole-string task that has not thrown runs to its
    end as soon as the engine's output ends and the queue takes its writes. *)
Lemma StringTask_unwind_returns (s : StringTask.State) :
  (∀ e, StringTask.pc s ≠ StringTask.Threw e) →
  ∃ s', StringTask.run s (StringTask.unwind s) = Some s' ∧
        StringTask.pc s' = StringTask.Returned.
Proof.
  intros Hpc. destruct s as [c w e p pr l]. simpl in Hpc.
  destruct p; try (by eexists; split; [reflexivity|]).
  by destruct (Hpc e0).
Qed.

(** The first scenario of the spec: without interruption the queue receives
    the engine's frames, in order, then one Flush Marker, and the task
    completes. *)
Lemma StringTask_natural_run (text : string) (frames : list AudioFrame) :
  ∃ s, StringTask.run (StringTask.stringSynthesisTask text)
         (StringTask.natural_schedule frames) = Some s ∧
       StringTask.promise s = Fulfilled ∧
       StringTask.written s = (Frame <$> frames) ++ [FLUSH_SENTINEL] ∧
       StringTask.engine s = [pushText text; flush; endInput].
Proof.
  assert (∀ s0, StringTask.pc s0 = StringTask.AwaitAudio →
                StringTask.cancelled s0 = false →
                ∃ s, StringTask.run s0 (StringTask.natural_schedule frames) = Some s ∧
                     StringTask.promise s = Fulfilled ∧
                     StringTask.written s =
                       StringTask.written s0 ++ (Frame <$> frames) ++ [FLUSH_SENTINEL] ∧
                     StringTask.engine s = StringTask.engine s0) as Hgen.
  { unfold StringTask.natural_schedule, StringTask.run.
    induction frames as [|f frames IH]; intros s0 Hpc Hc.
    - cbn [flat_map app exec]. unfold StringTask.step at 1. rewrite Hpc.
      simpl. eauto.
    - cbn [flat_map app exec]. unfold StringTask.step at 1. rewrite Hpc, Hc.
      simpl.
      destruct (IH (StringTask.goto StringTask.AwaitAudio
                      (StringTask.write (Frame f) StringTask.AwaitWrite s0)))
        as (s & Hrun & Hp & Hw & He); [done..|].
      exists s. split; [exact Hrun|]. split; [done|]. split; [|done].
      rewrite Hw. simpl. by rewrite <- app_assoc. }
  destruct (Hgen (StringTask.stringSynthesisTask text)) as (s & Hrun & Hp & Hw & He);
    [done..|]. eauto.
Qed.

(** ** The incremental-stream task *)

(** Cancelled or not, an incremental task none of whose loops has thrown
    completes once the text source and the engine's output end. *)
Lemma StreamTask_unwind_completes (s : StreamTask.State) :
  (∀ e, StreamTask.relay s ≠ StreamTask.RThrew e) →
  (∀ e, StreamTask.feed s ≠ StreamTask.FThrew e) →
  (StreamTask.feed s = StreamTask.FReturned → StreamTask.promise s = Fulfilled) →
  ∃ s', StreamTask.run s (StreamTask.unwind s) = Some s' ∧ StreamTask.completed s'.
Proof.
  intros Hr Hf Hp. destruct s as [c w e r f pr l]. simpl in *.
  destruct f as [| |e0]; [| |by destruct (Hf e0)];
    (destruct r as [| | | |e1]; [| | | |by destruct (Hr e1)]);
    try (eexists; split; [reflexivity|]; split; [|reflexivity]; simpl; auto).
Qed.

Lemma StreamTask_start_inv : StreamTask.Inv StreamTask.streamSynthesisTask.
Proof. repeat split; try done. - by left. - by exists []. Qed.

Lemma StreamTask_relay_inv (s : StreamTask.State) (a : StreamTask.Action) (s' : StreamTask.State) :
  StreamTask.Inv s → StreamTask.readGeneratedAudio s a = Some s' → StreamTask.Inv s'.
Proof.
  destruct s as [c w e r f pr l]. unfold StreamTask.Inv, StreamTask.readGeneratedAudio.
  simpl. intros (Hp & Hq & Hw) Hs.
  destruct a as [[[frame|]| |err]|[err|]| |]; destruct r; simpl in *;
    try destruct c; simplify_eq; simpl; (split; [done|]); (split; [done|]);
    try (destruct Hw as [fs ->]);
    try (by exists fs);
    try (by exists (fs ++ [frame]); rewrite fmap_app);
    try (rewrite ?flush_count_terminal, ?flush_count_frames; lia);
    try done.
Qed.

Lemma StreamTask_feed_inv (s : StreamTask.State) (r : IterResult string) (s' : StreamTask.State) :
  StreamTask.Inv s → StreamTask.feedText s r = Some s' → StreamTask.Inv s'.
Proof.
  destruct s as [c w e rl f pr l]. unfold StreamTask.Inv, StreamTask.feedText.
  simpl. intros (Hp & Hq & Hw) Hs.
  destruct f; [|done..].
  assert (pr = Pending) as ->.
  { destruct Hq as [->| ->]; [done|]. by destruct Hp as [Hp _]; specialize (Hp eq_refl). }
  destruct r as [text| |err]; try destruct c; simplify_eq; simpl;
    (split; [split; intros; done|]); (split; [by auto|]); done.
Qed.

Lemma StreamTask_step_inv (s : StreamTask.State) (a : StreamTask.Action) (s' : StreamTask.State) :
  StreamTask.Inv s → StreamTask.step s a = Some s' → StreamTask.Inv s'.
Proof.
  intros HI. destruct a as [r|r|r|]; unfold StreamTask.step.
  - by apply StreamTask_relay_inv.
  - by apply StreamTask_relay_inv.
  - by apply StreamTask_feed_inv.
  - intros [= <-]. exact HI.
Qed.

Lemma StreamTask_reachable_inv (acts : list StreamTask.Action) (s : StreamTask.State) :
  StreamTask.run StreamTask.streamSynthesisTask acts = Some s → StreamTask.Inv s.
Proof.
  apply (exec_invariant StreamTask.step StreamTask.Inv StreamTask_step_inv).
  apply StreamTask_start_inv.
Qed.

Lemma StreamTask_inv_flush_count (s : StreamTask.State) :
  StreamTask.Inv s → flush_count (StreamTask.written s) ≤ 1.
Proof.
  unfold StreamTask.Inv. destruct (StreamTask.relay s); intros (_ & _ & H);
    try destruct H as [fs ->];
    rewrite ?flush_count_terminal, ?flush_count_frames; lia.
Qed.

(** The relay writes its Flush Marker when it leaves its loop, whatever the
    feed is doing. *)
Lemma StreamTask_relay_returned (acts : list StreamTask.Action) (s : StreamTask.State) :
  StreamTask.run StreamTask.streamSynthesisTask acts = Some s →
  StreamTask.relay s = StreamTask.RReturned →
  ∃ fs : list AudioFrame, StreamTask.written s = (Frame <$> fs) ++ [FLUSH_SENTINEL].
Proof.
  intros Hrun Hr. apply StreamTask_reachable_inv in Hrun as (_ & _ & H).
  by rewrite Hr in H.
Qed.

(** C1: a completed synthesis task of either variant, cancelled at any point
    or not, has written exactly one Flush Marker to its queue, after every
    audio frame it wrote; no task ever writes a second one.  A whole-string
    task is complete when its promise is resolved; an incremental-stream task
    is complete when its promise is resolved and its audio relay has
    returned. *)
Theorem flush_marker_written_once_and_last :
  (∀ (text : string) (acts : list StringTask.Action) (s : StringTask.State),
     StringTask.run (StringTask.stringSynthesisTask text) acts = Some s →
     flush_count (StringTask.written s) ≤ 1 ∧
     (StringTask.promise s = Fulfilled →
      flush_count (StringTask.written s) = 1 ∧
      ∃ fs : list AudioFrame,
        StringTask.written s = (Frame <$> fs) ++ [FLUSH_SENTINEL])) ∧
  (∀ (acts : list StreamTask.Action) (s : StreamTask.State),
     StreamTask.run StreamTask.streamSynthesisTask acts = Some s →
     flush_count (StreamTask.written s) ≤ 1 ∧
     (StreamTask.completed s →
      flush_count (StreamTask.written s) = 1 ∧
      ∃ fs : list AudioFrame,
        StreamTask.written s = (Frame <$> fs) ++ [FLUSH_SENTINEL])).
Proof.
  split.
  - intros text acts s Hrun. apply StringTask_reachable_inv in Hrun as HI.
    split; [by apply StringTask_inv_flush_count|].
    intros Hp. unfold StringTask.Inv in HI.
    destruct (StringTask.pc s); destruct HI as [Hq H]; try congruence.
    destruct H as [fs ->]. split; [apply flush_count_terminal | by exists fs].
  - intros acts s Hrun. split.
    + by apply StreamTask_inv_flush_count, (StreamTask_reachable_inv acts).
    + intros [_ Hr]. destruct (StreamTask_relay_returned acts s Hrun Hr) as [fs ->].
      split; [apply flush_count_terminal | by exists fs].
Qed.

Lemma flush_marker_written_once_and_last_witness :
  (∃ s : StringTask.State,
     StringTask.run (StringTask.stringSynthesisTask "hello world")
       [StringTask.Next (Yield (Audio 1)); StringTask.WriteSettled None;
        StringTask.Cancel;
        StringTask.Next (Yield (Audio 2)); StringTask.WriteSettled None] = Some s ∧
     StringTask.promise s = Fulfilled ∧
     flush_count (StringTask.written s) = 1 ∧
     ∃ fs : list AudioFrame, StringTask.written s = (Frame <$> fs) ++ [FLUSH_SENTINEL]) ∧
  (∃ s : StreamTask.State,
     StreamTask.run StreamTask.streamSynthesisTask
       [StreamTask.Text (Yield "a"%string); StreamTask.Next (Yield (Audio 1));
        StreamTask.Cancel; StreamTask.WriteSettled None;
        StreamTask.Text (Yield "b"%string);
        StreamTask.Next (Yield (Audio 2)); StreamTask.WriteSettled None] = Some s ∧
     StreamTask.completed s ∧
     flush_count (StreamTask.written s) = 1 ∧
     ∃ fs : list AudioFrame, StreamTask.written s = (Frame <$> fs) ++ [FLUSH_SENTINEL]).
Proof.
  split.
  - eexists. split; [reflexivity|]. split; [reflexivity|].
    exact (proj2 (proj1 flush_marker_written_once_and_last "hello world"%string
                    [StringTask.Next (Yield (Audio 1)); StringTask.WriteSettled None;
                     StringTask.Cancel;
                     StringTask.Next (Yield (Audio 2)); StringTask.WriteSettled None]
                    _ eq_refl) eq_refl).
  - eexists. split; [reflexivity|]. split; [split; reflexivity|].
    exact (proj2 (proj2 flush_marker_written_once_and_last
                    [StreamTask.Text (Yield "a"%string); StreamTask.Next (Yield (Audio 1));
                     StreamTask.Cancel; StreamTask.WriteSettled None;
                     StreamTask.Text (Yield "b"%string);
                     StreamTask.Next (Yield (Audio 2)); StreamTask.WriteSettled None]
                    _ eq_refl) (conj eq_refl eq_refl)).
Defined.

(** The relay touches neither the engine's input nor the feed. *)
Lemma StreamTask_relay_frame (s : StreamTask.State) (a : StreamTask.Action) (s' : StreamTask.State) :
  StreamTask.readGeneratedAudio s a = Some s' →
  StreamTask.engine s' = StreamTask.engine s ∧
  StreamTask.feed s' = StreamTask.feed s ∧
  StreamTask.cancelled s' = StreamTask.cancelled s ∧
  StreamTask.promise s' = StreamTask.promise s.
Proof.
  unfold StreamTask.readGeneratedAudio. intros H.
  repeat case_match; simplify_eq; done.
Qed.

(** Once the feed has left its loop, no chunk is accepted and the engine's
    input does not change. *)
Lemma StreamTask_feed_over (acts : list StreamTask.Action) (s s' : StreamTask.State) :
  StreamTask.feed s ≠ StreamTask.FAwaitText →
  StreamTask.run s acts = Some s' →
  StreamTask.chunks_before_cancel acts = [] ∧
  StreamTask.engine s' = StreamTask.engine s ∧
  StreamTask.feed s' = StreamTask.feed s.
Proof.
  revert s. induction acts as [|a acts IH]; intros s Hf Hrun.
  - by injection Hrun as <-.
  - unfold StreamTask.run in Hrun. simpl in Hrun.
    destruct (StreamTask.step s a) as [s1|] eqn:Hstep; [|done].
    destruct a as [r|r|r|].
    + unfold StreamTask.step in Hstep;
      apply StreamTask_relay_frame in Hstep as (He & Hf1 & _).
      destruct (IH s1) as (? & ? & ?); [congruence | done |].
      simpl. repeat split; congruence.
    + unfold StreamTask.step in Hstep;
      apply StreamTask_relay_frame in Hstep as (He & Hf1 & _).
      destruct (IH s1) as (? & ? & ?); [congruence | done |].
      simpl. repeat split; congruence.
    + unfold StreamTask.step, StreamTask.feedText in Hstep.
      by destruct (StreamTask.feed s).
    + injection Hstep as <-.
      destruct (IH (StreamTask.cancel s)) as (? & ? & ?); [done | done |].
      by repeat split.
Qed.

(** After a cancellation request the feed pushes nothing more: it only sends
    its two control signals when it leaves the loop. *)
Lemma StreamTask_feed_cancelled (acts : list StreamTask.Action) (s s' : StreamTask.State) :
  StreamTask.cancelled s = true →
  StreamTask.feed s = StreamTask.FAwaitText →
  StreamTask.run s acts = Some s' →
  StreamTask.engine s' = StreamTask.engine s ++ StreamTask.feed_signals (StreamTask.feed s').
Proof.
  revert s. induction acts as [|a acts IH]; intros s Hc Hf Hrun.
  - injection Hrun as <-. by rewrite Hf, app_nil_r.
  - unfold StreamTask.run in Hrun. simpl in Hrun.
    destruct (StreamTask.step s a) as [s1|] eqn:Hstep; [|done].
    destruct a as [r|r|r|].
    + unfold StreamTask.step in Hstep;
      apply StreamTask_relay_frame in Hstep as (He & Hf1 & Hc1 & _).
      rewrite <- He. apply IH; [congruence | congruence | exact Hrun].
    + unfold StreamTask.step in Hstep;
      apply StreamTask_relay_frame in Hstep as (He & Hf1 & Hc1 & _).
      rewrite <- He. apply IH; [congruence | congruence | exact Hrun].
    + unfold StreamTask.step, StreamTask.feedText in Hstep. rewrite Hf, Hc in Hstep.
      destruct r as [text| |err]; injection Hstep as <-;
        (apply StreamTask_feed_over in Hrun as (_ & -> & ->); [|done]); simpl;
        by rewrite ?app_nil_r.
    + injection Hstep as <-. by apply (IH (StreamTask.cancel s)).
Qed.

(** Before any cancellation request every chunk the source yields is pushed. *)
Lemma StreamTask_feed_running (acts : list StreamTask.Action) (s s' : StreamTask.State) :
  StreamTask.cancelled s = false →
  StreamTask.feed s = StreamTask.FAwaitText →
  StreamTask.run s acts = Some s' →
  StreamTask.engine s' =
    StreamTask.engine s ++ (pushText <$> StreamTask.chunks_before_cancel acts)
      ++ StreamTask.feed_signals (StreamTask.feed s').
Proof.
  revert s. induction acts as [|a acts IH]; intros s Hc Hf Hrun.
  - injection Hrun as <-. by rewrite Hf, !app_nil_r.
  - unfold StreamTask.run in Hrun. simpl in Hrun.
    destruct (StreamTask.step s a) as [s1|] eqn:Hstep; [|done].
    destruct a as [r|r|r|].
    + unfold StreamTask.step in Hstep;
      apply StreamTask_relay_frame in Hstep as (He & Hf1 & Hc1 & _).
      rewrite <- He. destruct r; apply IH; first [exact Hrun | congruence].
    + unfold StreamTask.step in Hstep;
      apply StreamTask_relay_frame in Hstep as (He & Hf1 & Hc1 & _).
      rewrite <- He. apply IH; [congruence | congruence | exact Hrun].
    + unfold StreamTask.step, StreamTask.feedText in Hstep. rewrite Hf, Hc in Hstep.
      destruct r as [text| |err]; injection Hstep as <-.
      * rewrite (IH (StreamTask.push text s)); [|done..].
        simpl. by rewrite <- app_assoc.
      * cbn [StreamTask.chunks_before_cancel].
        apply StreamTask_feed_over in Hrun as (-> & -> & ->); [|done]. done.
      * cbn [StreamTask.chunks_before_cancel].
        apply StreamTask_feed_over in Hrun as (-> & -> & ->); [|done].
        simpl. by rewrite app_nil_r.
    + injection Hstep as <-. simpl.
      by apply (StreamTask_feed_cancelled acts (StreamTask.cancel s)).
Qed.

(** C7: in the incremental-stream variant the cancellation flag is read
    before each push (a chunk that arrives once the flag is set is not
    pushed: the feed leaves its loop instead), and at any point of any run
    the engine has received exactly the chunks the source yielded before
    the cancellation request, in order, followed, once the feed loop has
    been left because the input ended or because of the cancellation, by one
    flush and one end-of-input, and by nothing before. *)
Theorem feed_pushes_then_signals_once :
  (∀ (s s' : StreamTask.State) (text : string),
     StreamTask.cancelled s = true →
     StreamTask.feedText s (Yield text) = Some s' →
     StreamTask.engine s' = StreamTask.engine s ++ [flush; endInput]) ∧
  (∀ (acts : list StreamTask.Action) (s : StreamTask.State),
     StreamTask.run StreamTask.streamSynthesisTask acts = Some s →
     StreamTask.engine s =
       (pushText <$> StreamTask.chunks_before_cancel acts)
         ++ StreamTask.feed_signals (StreamTask.feed s)).
Proof.
  split.
  - intros s s' text Hc. unfold StreamTask.feedText. rewrite Hc.
    destruct (StreamTask.feed s); [|done..]. by intros [= <-].
  - intros acts s Hrun.
    by apply (StreamTask_feed_running acts StreamTask.streamSynthesisTask s) in Hrun.
Qed.

Lemma feed_pushes_then_signals_once_witness :
  (∃ s : StreamTask.State,
     StreamTask.feedText
       (StreamTask.cancel (StreamTask.push "a" StreamTask.streamSynthesisTask))
       (Yield "b"%string) = Some s ∧
     StreamTask.engine s = [pushText "a"; flush; endInput]) ∧
  (∃ s : StreamTask.State,
     StreamTask.run StreamTask.streamSynthesisTask
       [StreamTask.Text (Yield "a"%string); StreamTask.Text (Yield "b"%string);
        StreamTask.Cancel; StreamTask.Text (Yield "c"%string)] = Some s ∧
     StreamTask.engine s = [pushText "a"; pushText "b"; flush; endInput]).
Proof.
  split.
  - eexists. split; [reflexivity|].
    exact (proj1 feed_pushes_then_signals_once
             (StreamTask.cancel (StreamTask.push "a" StreamTask.streamSynthesisTask))
             _ "b"%string eq_refl eq_refl).
  - eexists. split; [reflexivity|].
    exact (proj2 feed_pushes_then_signals_once
             [StreamTask.Text (Yield "a"%string); StreamTask.Text (Yield "b"%string);
              StreamTask.Cancel; StreamTask.Text (Yield "c"%string)] _ eq_refl).
Defined.

(** C10: in the incremental-stream variant the task's promise is resolved
    exactly when the feed has left its loop, flush and end-of-input having
    then been sent to the engine, in whatever state the relay is; and there
    is a run in which the promise is resolved while the queue is still
    empty, and an audio frame and the Flush Marker are written afterwards. *)
Theorem stream_task_resolves_before_relay :
  (∀ (acts : list StreamTask.Action) (s : StreamTask.State),
     StreamTask.run StreamTask.streamSynthesisTask acts = Some s →
     (StreamTask.promise s = Fulfilled ↔ StreamTask.feed s = StreamTask.FReturned) ∧
     (StreamTask.feed s = StreamTask.FReturned →
      StreamTask.engine s =
        (pushText <$> StreamTask.chunks_before_cancel acts) ++ [flush; endInput])) ∧
  (∃ (acts1 acts2 : list StreamTask.Action) (s1 s2 : StreamTask.State),
     StreamTask.run StreamTask.streamSynthesisTask acts1 = Some s1 ∧
     StreamTask.promise s1 = Fulfilled ∧
     StreamTask.engine s1 = [pushText "hi"; flush; endInput] ∧
     StreamTask.relay s1 = StreamTask.RAwaitAudio ∧
     StreamTask.written s1 = [] ∧
     StreamTask.run s1 acts2 = Some s2 ∧
     StreamTask.written s2 = [Frame 1; FLUSH_SENTINEL]).
Proof.
  split.
  - intros acts s Hrun. split.
    + by apply StreamTask_reachable_inv in Hrun as (Hp & _).
    + intros Hf.
      apply (StreamTask_feed_running acts StreamTask.streamSynthesisTask s) in Hrun;
        [|done..].
      by rewrite Hf in Hrun.
  - exists [StreamTask.Text (Yield "hi"%string); StreamTask.Text IterDone],
           [StreamTask.Next (Yield (Audio 1)); StreamTask.WriteSettled None;
            StreamTask.Next (Yield END_OF_STREAM); StreamTask.WriteSettled None].
    eexists. eexists. split; [reflexivity|]. by repeat split.
Qed.

Lemma stream_task_resolves_before_relay_witness :
  ∃ s : StreamTask.State,
    StreamTask.run StreamTask.streamSynthesisTask [StreamTask.Text IterDone] = Some s ∧
    StreamTask.relay s = StreamTask.RAwaitAudio ∧
    StreamTask.written s = [] ∧
    (StreamTask.promise s = Fulfilled ↔ StreamTask.feed s = StreamTask.FReturned) ∧
    StreamTask.feed s = StreamTask.FReturned ∧
    StreamTask.engine s = [flush; endInput].
Proof.
  eexists. split; [reflexivity|]. split; [reflexivity|]. split; [reflexivity|].
  destruct (proj1 stream_task_resolves_before_relay [StreamTask.Text IterDone] _ eq_refl)
    as [Hiff Hengine].
  split; [exact Hiff|]. split; [reflexivity|]. exact (Hengine eq_refl).
Defined.

(** ** The synthesis handle *)

Section HandleFacts.

Context {Playout : Type}.
Variable agentPlayout_play : string → Playout → (Err + Handle.PlayoutHandle) * Playout.
Variable playHandle_interrupt : Handle.PlayoutHandle → Playout → Playout.

Abbreviation World := (@Handle.World Playout).
Abbreviation play := (Handle.play agentPlayout_play).
Abbreviation interrupt := (Handle.interrupt playHandle_interrupt).
Abbreviation call := (Handle.call agentPlayout_play playHandle_interrupt).
Abbreviation calls := (Handle.calls agentPlayout_play playHandle_interrupt).
Abbreviation successful_plays :=
  (Handle.successful_plays agentPlayout_play playHandle_interrupt).

Lemma Handle_interrupt_sets_signal (w : World) :
  Handle.interrupted (interrupt w).2 = true.
Proof.
  unfold Handle.interrupt. destruct (Handle.interrupted w) eqn:E; [exact E | reflexivity].
Qed.

Lemma Handle_interrupt_noop (w : World) :
  Handle.interrupted w = true → interrupt w = (inr (), w).
Proof. unfold Handle.interrupt. by intros ->. Qed.

Lemma Handle_play_interrupted (w : World) :
  Handle.interrupted w = true → play w = (inl Handle.InterruptedError, w).
Proof. unfold Handle.play. by intros ->. Qed.

(** The interrupted state is terminal: no call changes anything in it. *)
Lemma Handle_calls_interrupted (w : World) (cs : list Handle.Call) :
  Handle.interrupted w = true → calls w cs = w.
Proof.
  intros Hi. induction cs as [|c cs IH]; [done|].
  unfold Handle.calls in *. simpl.
  destruct c; simpl.
  - by rewrite Handle_play_interrupted.
  - by rewrite Handle_interrupt_noop.
Qed.

(** C3: once [interrupt()] has been called on a handle, every later call
    to [play()] throws the interruption error and changes nothing: the
    queue's read side is not handed to the playout subsystem (the
    subsystem's state and the number of registrations are what they
    were) and no playout handle is stored. *)
Theorem play_after_interrupt_fails (w : World) (cs : list Handle.Call) :
  let w' := calls (interrupt w).2 cs in
  play w' = (inl Handle.InterruptedError, w') ∧
  Handle.registrations (play w').2 = Handle.registrations w' ∧
  Handle.playout (play w').2 = Handle.playout w' ∧
  Handle.playHandle (Handle.handle (play w').2) = Handle.playHandle (Handle.handle w').
Proof.
  intros w'.
  assert (Handle.interrupted w' = true) as Hi.
  { unfold w'. rewrite Handle_calls_interrupted; apply Handle_interrupt_sets_signal. }
  by rewrite (Handle_play_interrupted w' Hi).
Qed.

Lemma Handle_interrupt_twice (w : World) :
  (interrupt (interrupt w).2).2 = (interrupt w).2.
Proof. by rewrite Handle_interrupt_noop; [|apply Handle_interrupt_sets_signal]. Qed.

(** C8: [interrupt()] never throws; calling it n ≥ 1 times leaves the
    handle, the playout subsystem and the trace of effects exactly as one
    call does, a call on an interrupted handle changing nothing; and the
    first call, after its log line, forwards the interruption to the
    playout handle if there is one and only then sets the interrupt
    signal. *)
Theorem interrupt_idempotent (w : World) (n : nat) :
  (interrupt w).1 = inr () ∧
  (1 ≤ n → Nat.iter n (λ w0, (interrupt w0).2) w = (interrupt w).2) ∧
  (Handle.interrupted w = true → (interrupt w).2 = w) ∧
  (Handle.interrupted w = false →
   Handle.interrupted (interrupt w).2 = true ∧
   Handle.trace (interrupt w).2 =
     Handle.trace w ++ [Handle.ELogDebug (Handle.speechId (Handle.handle w))]
       ++ match Handle.playHandle (Handle.handle w) with
          | Some ph => [Handle.EPlayHandleInterrupt ph]
          | None => []
          end
       ++ [Handle.EIntFutResolve] ∧
   Handle.playout (interrupt w).2 =
     match Handle.playHandle (Handle.handle w) with
     | Some ph => playHandle_interrupt ph (Handle.playout w)
     | None => Handle.playout w
     end).
Proof.
  split; [|split; [|split]].
  - unfold Handle.interrupt. by destruct (Handle.interrupted w).
  - intros Hn. destruct n as [|n]; [lia|]. clear Hn.
    induction n as [|n IH]; [done|].
    change (Nat.iter (S (S n)) (λ w0, (interrupt w0).2) w)
      with ((interrupt (Nat.iter (S n) (λ w0, (interrupt w0).2) w)).2).
    rewrite IH. apply Handle_interrupt_twice.
  - intros Hi. by rewrite Handle_interrupt_noop.
  - intros Hi. split; [apply Handle_interrupt_sets_signal|].
    unfold Handle.interrupt. rewrite Hi.
    unfold Handle.set_interrupt_signal, Handle.forward_interrupt, Handle.log_debug.
    simpl. destruct (Handle.playHandle (Handle.handle w)); simpl;
      by rewrite <- ?app_assoc.
Qed.

Lemma Handle_assignments_call (w : World) (c : Handle.Call) :
  Handle.assignments (call w c) =
    Handle.assignments w + successful_plays w [c].
Proof.
  unfold Handle.assignments. destruct c; simpl.
  - unfold Handle.play. destruct (Handle.interrupted w); simpl; [lia|].
    destruct (agentPlayout_play _ _) as [[e|ph] p']; simpl;
      rewrite filter_app, length_app; simpl; lia.
  - unfold Handle.interrupt. destruct (Handle.interrupted w); simpl; [lia|].
    unfold Handle.forward_interrupt. simpl.
    destruct (Handle.playHandle (Handle.handle w)); simpl;
      rewrite !filter_app, !length_app; simpl; lia.
Qed.

Lemma Handle_assignments_calls (w : World) (cs : list Handle.Call) :
  Handle.assignments (calls w cs) = Handle.assignments w + successful_plays w cs.
Proof.
  revert w. induction cs as [|c cs IH]; intros w.
  - simpl. lia.
  - unfold Handle.calls in *. simpl foldl. rewrite IH, Handle_assignments_call.
    simpl. lia.
Qed.

Lemma Handle_successful_plays_le (w : World) (cs : list Handle.Call) :
  successful_plays w cs ≤ Handle.play_calls cs.
Proof.
  revert w. induction cs as [|c cs IH]; intros w; [done|].
  unfold Handle.play_calls in *.
  specialize (IH (call w c)).
  destruct c; cbn [Handle.successful_plays filter list_filter Handle.is_play length].
  - rewrite decide_True by done. cbn [Handle.call] in IH.
    destruct (play w).1; simpl; [apply Nat.le_le_succ_r | apply le_n_S]; exact IH.
  - rewrite decide_False by (by intros []). cbn [Handle.call] in IH. exact IH.
Qed.

(** C4, as the code has it: [#playHandle] is assigned by every call to
    [play()] that does not throw, and by nothing else.  Over the calls made
    on a handle it is assigned as many times as [play()] succeeds: never
    once the handle is interrupted, and at most once on a handle on which
    [play()] is called at most once. *)
Theorem playHandle_assigned_by_each_successful_play
    (id : string) (src : SpeechSource) (p : Playout) (w : World) (cs : list Handle.Call) :
  Handle.assignments (calls w cs) = Handle.assignments w + successful_plays w cs ∧
  (Handle.interrupted w = true → Handle.assignments (calls w cs) = Handle.assignments w) ∧
  (Handle.play_calls cs ≤ 1 → Handle.assignments (calls (Handle.new id src p) cs) ≤ 1).
Proof.
  split; [apply Handle_assignments_calls|]. split.
  - intros Hi. by rewrite Handle_calls_interrupted.
  - intros Hle. rewrite Handle_assignments_calls.
    pose proof (Handle_successful_plays_le (Handle.new id src p) cs).
    unfold Handle.assignments at 1. simpl. lia.
Qed.

(** A failure of the playout subsystem's [play] is thrown by
    [SynthesisHandle.play()] to its caller, and no playout handle is
    stored. *)
Lemma Handle_play_propagates (w : World) (e : Err) (p' : Playout) :
  Handle.interrupted w = false →
  agentPlayout_play (Handle.speechId (Handle.handle w)) (Handle.playout w) = (inl e, p') →
  (play w).1 = inl e ∧
  Handle.playHandle (Handle.handle (play w).2) = Handle.playHandle (Handle.handle w).
Proof. unfold Handle.play. by intros -> ->. Qed.

End HandleFacts.

Lemma interrupt_idempotent_witness :
  let w := (Handle.play Handle.simple_play
              (Handle.new "speech-1" (SrcString "hi") [])).2 in
  (1 ≤ 3 ∧ Handle.interrupted w = false) ∧
  Nat.iter 3 (λ w0, (Handle.interrupt Handle.simple_interrupt w0).2) w =
    (Handle.interrupt Handle.simple_interrupt w).2 ∧
  Handle.trace (Handle.interrupt Handle.simple_interrupt w).2 =
    [Handle.EPlayoutPlay "speech-1"; Handle.EAssignPlayHandle 0;
     Handle.ELogDebug "speech-1"; Handle.EPlayHandleInterrupt 0;
     Handle.EIntFutResolve].
Proof.
  intros w.
  destruct (interrupt_idempotent Handle.simple_interrupt w 3) as (_ & Hn & _ & Hfirst).
  split; [split; [lia | reflexivity]|].
  split; [apply Hn; lia|].
  destruct (Hfirst eq_refl) as (_ & Htrace & _). exact Htrace.
Defined.

(** C4 as stated fails: two calls to [play()] on a fresh handle assign
    [#playHandle] twice. *)
Lemma playHandle_assigned_twice :
  ¬ (∀ cs : list Handle.Call,
       Handle.assignments
         (Handle.calls Handle.simple_play Handle.simple_interrupt
            (Handle.new "speech-1" (SrcString "hi") []) cs) ≤ 1).
Proof.
  intros H. specialize (H [Handle.CallPlay; Handle.CallPlay]).
  vm_compute in H. lia.
Qed.

Lemma playHandle_assigned_by_each_successful_play_witness :
  let w := (Handle.interrupt Handle.simple_interrupt
              (Handle.new "speech-1" (SrcString "hi") [])).2 in
  (Handle.interrupted w = true ∧
   Handle.assignments
     (Handle.calls Handle.simple_play Handle.simple_interrupt w
        [Handle.CallPlay; Handle.CallPlay]) = Handle.assignments w) ∧
  (Handle.play_calls [Handle.CallPlay; Handle.CallInterrupt; Handle.CallInterrupt] ≤ 1 ∧
   Handle.assignments
     (Handle.calls Handle.simple_play Handle.simple_interrupt
        (Handle.new "speech-1" (SrcString "hi") [])
        [Handle.CallPlay; Handle.CallInterrupt; Handle.CallInterrupt]) ≤ 1).
Proof.
  intros w. split.
  - split; [reflexivity|].
    exact (proj1 (proj2 (playHandle_assigned_by_each_successful_play
                           Handle.simple_play Handle.simple_interrupt
                           "speech-1"%string (SrcString "hi") [] w
                           [Handle.CallPlay; Handle.CallPlay])) eq_refl).
  - assert (Handle.play_calls
              [Handle.CallPlay; Handle.CallInterrupt; Handle.CallInterrupt] ≤ 1) as Hle.
    { vm_compute. lia. }
    split; [exact Hle|].
    exact (proj2 (proj2 (playHandle_assigned_by_each_successful_play
                           Handle.simple_play Handle.simple_interrupt
                           "speech-1"%string (SrcString "hi") [] w
                           [Handle.CallPlay; Handle.CallInterrupt; Handle.CallInterrupt]))
             Hle).
Defined.

(** ** The supervising task *)

Lemma StringTask_fulfilled_stable (t t' : StringTask.State) (a : StringTask.Action) :
  StringTask.Inv t → StringTask.promise t = Fulfilled →
  StringTask.step t a = Some t' → StringTask.promise t' = Fulfilled.
Proof.
  unfold StringTask.Inv, StringTask.step. intros HI Hp Hs.
  destruct (StringTask.pc t); destruct HI as [Hq _]; try congruence.
  destruct a as [[[frame|]| |err]|[err|]|]; by simplify_eq.
Qed.

Lemma StreamTask_fulfilled_stable (t t' : StreamTask.State) (a : StreamTask.Action) :
  StreamTask.Inv t → StreamTask.promise t = Fulfilled →
  StreamTask.step t a = Some t' → StreamTask.promise t' = Fulfilled.
Proof.
  intros (Hp & _) Hf Hs. apply Hp in Hf as Hfeed.
  destruct a as [r|r|r|]; unfold StreamTask.step in Hs.
  - apply StreamTask_relay_frame in Hs as (_ & _ & _ & ->). done.
  - apply StreamTask_relay_frame in Hs as (_ & _ & _ & ->). done.
  - unfold StreamTask.feedText in Hs. by rewrite Hfeed in Hs.
  - by injection Hs as <-.
Qed.

Lemma Supervisor_cancel_inv (v : Supervisor.Variant) :
  Supervisor.VariantInv v → Supervisor.VariantInv (Supervisor.variant_cancel v).
Proof. by destruct v. Qed.

Lemma Supervisor_cancel_promise (v : Supervisor.Variant) :
  Supervisor.variant_promise (Supervisor.variant_cancel v) = Supervisor.variant_promise v.
Proof. by destruct v. Qed.

(** A cancellation request does not run the task: the loops of the variant
    stay where they are. *)
Lemma Supervisor_cancel_running (v : Supervisor.Variant) :
  Supervisor.variant_running (Supervisor.variant_cancel v) = Supervisor.variant_running v ∧
  Supervisor.variant_written (Supervisor.variant_cancel v) = Supervisor.variant_written v ∧
  Supervisor.variant_cancelled (Supervisor.variant_cancel v) = true.
Proof. by destruct v. Qed.

Lemma Supervisor_start_inv (src : SpeechSource) :
  Supervisor.Inv (Supervisor.synthesize_task src).
Proof. by split. Qed.

Lemma Supervisor_step_inv (s : Supervisor.State) (a : Supervisor.Action) (s' : Supervisor.State) :
  Supervisor.Inv s → Supervisor.step s a = Some s' → Supervisor.Inv s'.
Proof.
  destruct s as [src int tk p pr ic]. unfold Supervisor.Inv, Supervisor.step. simpl.
  intros HI Hs. destruct a as [| | |a|a|].
  - (* the source settles *)
    destruct p; simplify_eq. destruct HI as [-> ->].
    unfold Supervisor.source_settled. simpl.
    destruct src as [text|[e|text]|]; simpl; (split; [done|]); try done.
    + eexists. split; [done|]. apply StringTask_start_inv.
    + eexists. split; [done|]. apply StringTask_start_inv.
    + eexists. split; [done|]. apply StreamTask_start_inv.
  - (* interrupt() *)
    simplify_eq. simpl. destruct p; try done.
    destruct HI as (Hp & v & Hv & HvI & _). split; [done|]. exists v. auto.
  - (* cancel() *)
    simplify_eq. simpl. destruct p; destruct HI as [Hp HI]; (split; [done|]).
    + by rewrite HI.
    + destruct HI as (v & -> & HvI). eexists. split; [done|].
      by apply Supervisor_cancel_inv.
    + destruct HI as (v & -> & HvI & Hd). eexists. split; [done|].
      split; [by apply Supervisor_cancel_inv|].
      simpl. by rewrite Supervisor_cancel_promise.
    + by rewrite HI.
  - (* a step of the whole-string task *)
    destruct a as [r|r|]; try done;
      (destruct tk as [[t|t]|]; try done);
      (destruct (StringTask.step t _) as [t'|] eqn:Hstep; [|done]);
      simpl in Hs; simplify_eq; simpl;
      (destruct p; destruct HI as [Hp HI]; try done; (split; [done|]));
      try (destruct HI as (v & [= <-] & HvI & Hd));
      try (destruct HI as (v & [= <-] & HvI));
      (eexists; split; [done|]);
      try (split; [by eapply StringTask_step_inv|]);
      try (by eapply StringTask_step_inv);
      (destruct Hd as [Hd|Hd]; [left|by right]);
      by eapply StringTask_fulfilled_stable.
  - (* a step of the incremental-stream task *)
    destruct a as [r|r|r|]; try done;
      (destruct tk as [[t|t]|]; try done);
      (destruct (StreamTask.step t _) as [t'|] eqn:Hstep; [|done]);
      simpl in Hs; simplify_eq; simpl;
      (destruct p; destruct HI as [Hp HI]; try done; (split; [done|]));
      try (destruct HI as (v & [= <-] & HvI & Hd));
      try (destruct HI as (v & [= <-] & HvI));
      (eexists; split; [done|]);
      try (split; [by eapply StreamTask_step_inv|]);
      try (by eapply StreamTask_step_inv);
      (destruct Hd as [Hd|Hd]; [left|by right]);
      by eapply StreamTask_fulfilled_stable.
  - (* the race is decided *)
    destruct p; try done. destruct tk as [v|]; [|done].
    destruct (Supervisor.race_decided _ v) eqn:Hrace; [|done].
    simplify_eq. simpl. destruct HI as (_ & v0 & [= <-] & HvI).
    split; [done|]. eexists. split; [done|].
    unfold Supervisor.race_decided in Hrace. simpl in Hrace.
    destruct int; simpl.
    + split; [by apply Supervisor_cancel_inv | by right].
    + split; [done|]. left. rewrite orb_false_r in Hrace.
      by apply bool_decide_eq_true in Hrace.
Qed.

Lemma Supervisor_reachable_inv (src : SpeechSource) (acts : list Supervisor.Action)
    (s : Supervisor.State) :
  Supervisor.run (Supervisor.synthesize_task src) acts = Some s → Supervisor.Inv s.
Proof.
  apply (exec_invariant Supervisor.step Supervisor.Inv Supervisor_step_inv).
  apply Supervisor_start_inv.
Qed.

(** Whenever the race is decided on an interrupted handle, the supervising
    task requests the cancellation of its variant and resolves in the same
    turn: the variant has not run in between. *)
Lemma Supervisor_race_settled_interrupted (s : Supervisor.State) (v : Supervisor.Variant) :
  Supervisor.pc s = Supervisor.AwaitRace →
  Supervisor.task s = Some v →
  Supervisor.intFutDone s = true →
  ∃ s', Supervisor.step s Supervisor.RaceSettled = Some s' ∧
        Supervisor.promise s' = Fulfilled ∧
        Supervisor.task s' = Some (Supervisor.variant_cancel v).
Proof.
  intros Hpc Ht Hi. unfold Supervisor.step, Supervisor.race_decided.
  rewrite Hpc, Ht, Hi, orb_true_r. eexists. split; [done|].
  unfold Supervisor.race_settled. by rewrite Hi.
Qed.

(** C2, on the code: a handle with a whole-string source is interrupted while
    its synthesis task waits for the engine's first audio event.  The
    supervising task requests the cancellation and is resolved at once,
    while the task it supervises is still suspended in its loop, its promise
    pending and its Flush Marker not yet written. *)
Theorem supervisor_resolves_before_variant_unwinds :
  ∃ (s : Supervisor.State) (v : Supervisor.Variant),
    Supervisor.run (Supervisor.synthesize_task (SrcString "hello"))
      [Supervisor.SourceSettled; Supervisor.Interrupt; Supervisor.RaceSettled] = Some s ∧
    Supervisor.promise s = Fulfilled ∧
    Supervisor.task s = Some v ∧
    Supervisor.variant_cancelled v = true ∧
    Supervisor.variant_running v = true ∧
    Supervisor.variant_promise v = Pending ∧
    Supervisor.variant_written v = [].
Proof. eexists. eexists. split; [reflexivity|]. by repeat split. Qed.

(** C6 as stated fails: the engine's stream fails in the audio relay of an
    incremental task, or in a whole-string task whose handle is interrupted
    afterwards, and the supervising task completes successfully. *)
Lemma engine_failure_is_swallowed :
  (∃ s : Supervisor.State,
     Supervisor.run (Supervisor.synthesize_task SrcIterable)
       [Supervisor.SourceSettled;
        Supervisor.StreamAct (StreamTask.Next (IterThrow "tts failed"));
        Supervisor.StreamAct (StreamTask.Text IterDone);
        Supervisor.RaceSettled] = Some s ∧
     Supervisor.failed_with s "tts failed" ∧
     Supervisor.promise s = Fulfilled) ∧
  (∃ s : Supervisor.State,
     Supervisor.run (Supervisor.synthesize_task (SrcString "hello"))
       [Supervisor.SourceSettled;
        Supervisor.StringAct (StringTask.Next (IterThrow "tts failed"));
        Supervisor.Interrupt;
        Supervisor.RaceSettled] = Some s ∧
     Supervisor.failed_with s "tts failed" ∧
     Supervisor.promise s = Fulfilled).
Proof.
  split; (eexists; split; [reflexivity|]; split; [|reflexivity]);
    (eexists; split; reflexivity).
Qed.

(** C6, as the code has it: a failure of the playout subsystem's [play] is
    thrown by [SynthesisHandle.play()] to its caller.  A failure raised by
    the engine's stream or by a queue write inside a synthesis task is not
    propagated by any task: neither the promise of a synthesis task nor the
    promise of its supervising task is ever rejected.  A whole-string task
    that failed, and an incremental task whose text feed failed, keep their
    promise pending, and their supervising task resolves only if the handle
    is interrupted; a failure in the audio relay of an incremental task does
    not change the task's promise. *)
Theorem failures_surface_only_from_play :
  (∀ (Playout : Type)
     (agentPlayout_play : string → Playout → (Err + Handle.PlayoutHandle) * Playout)
     (w : @Handle.World Playout) (e : Err) (p' : Playout),
     Handle.interrupted w = false →
     agentPlayout_play (Handle.speechId (Handle.handle w)) (Handle.playout w) = (inl e, p') →
     (Handle.play agentPlayout_play w).1 = inl e) ∧
  (∀ (src : SpeechSource) (acts : list Supervisor.Action) (s : Supervisor.State),
     Supervisor.run (Supervisor.synthesize_task src) acts = Some s →
     (Supervisor.promise s = Pending ∨ Supervisor.promise s = Fulfilled) ∧
     (∀ v, Supervisor.task s = Some v →
        Supervisor.variant_promise v = Pending ∨ Supervisor.variant_promise v = Fulfilled) ∧
     (∀ t e, Supervisor.task s = Some (Supervisor.StringVariant t) →
        StringTask.pc t = StringTask.Threw e →
        StringTask.promise t = Pending ∧
        (Supervisor.promise s = Fulfilled → Supervisor.intFutDone s = true)) ∧
     (∀ t e, Supervisor.task s = Some (Supervisor.StreamVariant t) →
        StreamTask.feed t = StreamTask.FThrew e →
        StreamTask.promise t = Pending ∧
        (Supervisor.promise s = Fulfilled → Supervisor.intFutDone s = true))) ∧
  (∀ (t t' : StreamTask.State) (r : IterResult SynthesizedAudio) (e : Err),
     StreamTask.step t (StreamTask.Next r) = Some t' →
     StreamTask.relay t' = StreamTask.RThrew e →
     StreamTask.promise t' = StreamTask.promise t ∧ StreamTask.feed t' = StreamTask.feed t).
Proof.
  split; [|split].
  - intros Playout agentPlayout_play w e p' Hi Hplay.
    by destruct (Handle_play_propagates agentPlayout_play w e p' Hi Hplay).
  - intros src acts s Hrun. apply Supervisor_reachable_inv in Hrun as HI.
    unfold Supervisor.Inv in HI.
    assert (∀ v, Supervisor.task s = Some v → Supervisor.VariantInv v) as HvI.
    { intros v Hv. destruct (Supervisor.pc s); destruct HI as [_ HI];
        try congruence; destruct HI as (v0 & Hv0 & Hinv); simplify_eq;
        [done | by destruct Hinv]. }
    assert (∀ v, Supervisor.task s = Some v →
              Supervisor.promise s = Fulfilled →
              Supervisor.variant_promise v = Fulfilled ∨ Supervisor.intFutDone s = true)
      as Hres.
    { intros v Hv Hf. destruct (Supervisor.pc s); destruct HI as [Hp HI];
        try congruence. destruct HI as (v0 & Hv0 & _ & Hd). by simplify_eq. }
    split; [|split; [|split]].
    + destruct (Supervisor.pc s); destruct HI as [-> _]; auto.
    + intros v Hv. specialize (HvI v Hv). destruct v as [t|t]; simpl in *.
      * unfold StringTask.Inv in HvI.
        destruct (StringTask.pc t); destruct HvI as [-> _]; auto.
      * by destruct HvI as (_ & Hq & _).
    + intros t e Hv Hpc. specialize (HvI _ Hv). simpl in HvI.
      unfold StringTask.Inv in HvI. rewrite Hpc in HvI. destruct HvI as [Hp _].
      split; [done|]. intros Hf. destruct (Hres _ Hv Hf) as [Hd|Hd]; [|done].
      simpl in Hd. congruence.
    + intros t e Hv Hfeed. specialize (HvI _ Hv). simpl in HvI.
      destruct HvI as (Hiff & [Hp|Hp] & _).
      * split; [done|]. intros Hf. destruct (Hres _ Hv Hf) as [Hd|Hd]; [|done].
        simpl in Hd. congruence.
      * apply Hiff in Hp. congruence.
  - intros t t' r e Hstep _. unfold StreamTask.step in Hstep.
    by apply StreamTask_relay_frame in Hstep as (_ & -> & _ & ->).
Qed.

Lemma failures_surface_only_from_play_witness :
  (Handle.play Handle.broken_play
     (Handle.new "speech-1" (SrcString "hi") [])).1 = inl "playout failed"%string ∧
  (∃ s t, Supervisor.run (Supervisor.synthesize_task (SrcString "hello"))
            [Supervisor.SourceSettled;
             Supervisor.StringAct (StringTask.Next (IterThrow "tts failed"))] = Some s ∧
          Supervisor.task s = Some (Supervisor.StringVariant t) ∧
          StringTask.pc t = StringTask.Threw "tts failed" ∧
          StringTask.promise t = Pending ∧
          Supervisor.promise s = Pending) ∧
  (∃ t, StreamTask.step StreamTask.streamSynthesisTask
          (StreamTask.Next (IterThrow "tts failed")) = Some t ∧
        StreamTask.relay t = StreamTask.RThrew "tts failed" ∧
        StreamTask.promise t = Pending).
Proof.
  destruct failures_surface_only_from_play as (Hplay & Hsup & Hrelay).
  split; [|split].
  - exact (Hplay _ Handle.broken_play (Handle.new "speech-1" (SrcString "hi") [])
             "playout failed"%string [] eq_refl eq_refl).
  - eexists. eexists. split; [reflexivity|]. split; [reflexivity|]. split; [reflexivity|].
    destruct (Hsup (SrcString "hello")
                [Supervisor.SourceSettled;
                 Supervisor.StringAct (StringTask.Next (IterThrow "tts failed"))]
                _ eq_refl) as (_ & _ & Hstr & _).
    split; [|reflexivity].
    exact (proj1 (Hstr _ "tts failed"%string eq_refl eq_refl)).
  - eexists. split; [reflexivity|]. split; [reflexivity|].
    exact (proj1 (Hrelay StreamTask.streamSynthesisTask _
                    (IterThrow "tts failed") "tts failed"%string eq_refl eq_refl)).
Defined.

(** ** The output orchestrator *)

(** [synthesize()] adds exactly the task it launched, at the end. *)
Lemma AgentOutput_synthesize_adds (src : SpeechSource) (s : AgentOutput.State) :
  AgentOutput.tasks (AgentOutput.synthesize src s) =
    AgentOutput.tasks s ++ [length (AgentOutput.heap s)] ∧
  AgentOutput.heap (AgentOutput.synthesize src s) !! length (AgentOutput.heap s) =
    Some (Supervisor.synthesize_task src).
Proof.
  split; [done|]. simpl. rewrite lookup_app_r by lia.
  by rewrite Nat.sub_diag.
Qed.

(** Only [synthesize()] and a task's [finally] callback touch the task list. *)
Lemma AgentOutput_tasks_mutators (s s' : AgentOutput.State) (a : AgentOutput.Action) :
  AgentOutput.step s a = Some s' →
  AgentOutput.tasks s' ≠ AgentOutput.tasks s →
  (∃ src, a = AgentOutput.Synthesize src) ∨ (∃ t, a = AgentOutput.Finally t).
Proof.
  intros Hs Hne. destruct a as [src|t a| t | |]; eauto; exfalso; apply Hne;
    unfold AgentOutput.step in Hs.
  - destruct a; try done;
      apply bind_Some in Hs as (task & _ & Hs);
      apply bind_Some in Hs as (task' & _ & Hs); by simplify_eq.
  - destruct (AgentOutput.closing s); by simplify_eq.
  - destruct (AgentOutput.closing s); [|done]. case_match; by simplify_eq.
Qed.

(** What the [finally] callback leaves of the list: the tasks that were
    pushed before the completed one. *)
Lemma AgentOutput_splice_indexOf (t : AgentOutput.TaskRef) (before after : list AgentOutput.TaskRef) :
  t ∉ before →
  AgentOutput.splice (AgentOutput.indexOf t (before ++ t :: after)) (before ++ t :: after)
    = before.
Proof.
  intros Hnotin. unfold AgentOutput.indexOf, AgentOutput.splice.
  assert (list_find (λ x, x = t) (before ++ t :: after) = Some (length before, t)) as ->.
  { apply list_find_Some. split; [by apply list_lookup_middle|]. split; [done|].
    intros j y Hj Hlt ->. apply Hnotin. apply list_elem_of_lookup. exists j.
    by rewrite lookup_app_l in Hj. }
  assert ((Z.of_nat (length before) <? 0)%Z = false) as -> by (apply Z.ltb_ge; lia).
  rewrite Z.min_l by (rewrite length_app; simpl; lia).
  rewrite Nat2Z.id. by rewrite take_app_length.
Qed.







(** [close()] requests the cancellation of every task in the list. *)
Lemma AgentOutput_close_cancels (s : AgentOutput.State) (t : AgentOutput.TaskRef)
    (task : Supervisor.State) :
  t ∈ AgentOutput.tasks s →
  AgentOutput.heap s !! t = Some task →
  ∃ task', AgentOutput.heap (AgentOutput.close s) !! t = Some task' ∧
           Supervisor.isCancelled task' = true.
Proof.
  unfold AgentOutput.close. simpl.
  generalize (AgentOutput.tasks s) as l. generalize (AgentOutput.heap s) as h.
  intros h l. revert h task.
  assert (∀ (l : list AgentOutput.TaskRef) (h : list Supervisor.State) (task : Supervisor.State),
            h !! t = Some task → Supervisor.isCancelled task = true →
            ∃ task', foldl (λ h0 t0, alter Supervisor.cancel t0 h0) h l !! t = Some task' ∧
                     Supervisor.isCancelled task' = true) as Hkeep.
  { clear l. induction l as [|t0 l IH]; intros h task Hl Hc; simpl; [eauto|].
    destruct (decide (t0 = t)) as [->|Hne].
    - eapply IH; [by rewrite list_lookup_alter_eq, Hl|done].
    - eapply IH; [by rewrite list_lookup_alter_ne|done]. }
  induction l as [|t0 l IH]; intros h task Hin Hl; [by apply elem_of_nil in Hin|].
  simpl. destruct (decide (t0 = t)) as [->|Hne].
  - eapply Hkeep; [by rewrite list_lookup_alter_eq, Hl|done].
  - apply elem_of_cons in Hin as [->|Hin]; [done|].
    eapply IH; [done|by rewrite list_lookup_alter_ne].
Qed.



(** C5, on the code: three tasks are in flight and the first one completes.
    Its [finally] callback calls [splice] with a start index and no delete
    count, which empties the list: the two tasks that are still live are no
    longer in it. *)
Theorem completion_removes_later_tasks :
  ∃ s1 s2 : AgentOutput.State,
    AgentOutput.run AgentOutput.new
      [AgentOutput.Synthesize (SrcString "one");
       AgentOutput.Synthesize (SrcString "two");
       AgentOutput.Synthesize (SrcString "three");
       AgentOutput.Task 0 Supervisor.SourceSettled;
       AgentOutput.Task 1 Supervisor.SourceSettled;
       AgentOutput.Task 2 Supervisor.SourceSettled;
       AgentOutput.Task 0 (Supervisor.StringAct (StringTask.Next (Yield END_OF_STREAM)));
       AgentOutput.Task 0 (Supervisor.StringAct (StringTask.WriteSettled None));
       AgentOutput.Task 0 Supervisor.RaceSettled] = Some s1 ∧
    AgentOutput.tasks s1 = [0; 1; 2] ∧
    AgentOutput.live s1 0 = false ∧
    AgentOutput.live s1 1 = true ∧
    AgentOutput.live s1 2 = true ∧
    AgentOutput.step s1 (AgentOutput.Finally 0) = Some s2 ∧
    AgentOutput.tasks s2 = [] ∧
    AgentOutput.live s2 1 = true ∧
    AgentOutput.live s2 2 = true.
Proof.
  eexists. eexists. split; [vm_compute; reflexivity|].
  repeat split; vm_compute; reflexivity.
Qed.

(** C9, on the code: two tasks are in flight, the first completes and its
    [finally] callback empties the task list; [close()] then finds no task
    to cancel or to wait for and returns while the second task is still
    pending, without having asked it to stop. *)
Theorem close_returns_while_task_live :
  ∃ (s : AgentOutput.State) (task : Supervisor.State),
    AgentOutput.run AgentOutput.new
      [AgentOutput.Synthesize (SrcString "one");
       AgentOutput.Synthesize (SrcString "two");
       AgentOutput.Task 0 Supervisor.SourceSettled;
       AgentOutput.Task 1 Supervisor.SourceSettled;
       AgentOutput.Task 0 (Supervisor.StringAct (StringTask.Next (Yield END_OF_STREAM)));
       AgentOutput.Task 0 (Supervisor.StringAct (StringTask.WriteSettled None));
       AgentOutput.Task 0 Supervisor.RaceSettled;
       AgentOutput.Finally 0;
       AgentOutput.Close;
       AgentOutput.CloseReturn] = Some s ∧
    AgentOutput.closeReturned s = true ∧
    AgentOutput.heap s !! 1 = Some task ∧
    AgentOutput.live s 1 = true ∧
    Supervisor.isCancelled task = false ∧
    Supervisor.task_running task = true.
Proof.
  eexists. eexists. split; [vm_compute; reflexivity|].
  repeat split; vm_compute; reflexivity.
Qed.

(** ** Further properties of the synthesis tasks *)

Lemma frames_of_frames (fs : list AudioFrame) : frames_of (Frame <$> fs) = fs.
Proof.
  induction fs as [|f fs IH]; [done|].
  change (frames_of (Frame <$> f :: fs)) with (f :: frames_of (Frame <$> fs)).
  by rewrite IH.
Qed.

Lemma frames_of_snoc_frame (q : list QueueEntry) (f : AudioFrame) :
  frames_of (q ++ [Frame f]) = frames_of q ++ [f].
Proof. unfold frames_of. by rewrite omap_app. Qed.

Lemma frames_of_snoc_flush (q : list QueueEntry) :
  frames_of (q ++ [FLUSH_SENTINEL]) = frames_of q.
Proof. unfold frames_of. rewrite omap_app. simpl. by rewrite app_nil_r. Qed.

(** Once the loop of a whole-string task has stopped forwarding, it stays
    so, and no frame is added to the queue. *)
Lemma StringTask_stopped_step (s s' : StringTask.State) (a : StringTask.Action) :
  StringTask.stopped s = true → StringTask.step s a = Some s' →
  StringTask.stopped s' = true ∧
  frames_of (StringTask.written s') = frames_of (StringTask.written s).
Proof.
  destruct s as [c w e p pr l]. unfold StringTask.stopped, StringTask.step. simpl.
  intros Hst Hs.
  destruct a as [[[frame|]| |err]|[err|]|]; destruct p; destruct c;
    simplify_eq; simpl in *; rewrite ?frames_of_snoc_flush; done.
Qed.

Lemma StringTask_stopped_run (acts : list StringTask.Action) (s s' : StringTask.State) :
  StringTask.stopped s = true → StringTask.run s acts = Some s' →
  frames_of (StringTask.written s') = frames_of (StringTask.written s).
Proof.
  revert s. induction acts as [|a acts IH]; intros s Hst Hrun.
  - by injection Hrun as <-.
  - unfold StringTask.run in Hrun. simpl in Hrun.
    destruct (StringTask.step s a) as [s1|] eqn:Hstep; [|done].
    destruct (StringTask_stopped_step s s1 a Hst Hstep) as [Hst1 <-].
    by apply IH.
Qed.

Lemma StringTask_forwarding_run (acts : list StringTask.Action) (s s' : StringTask.State) :
  StringTask.stopped s = false → StringTask.run s acts = Some s' →
  frames_of (StringTask.written s') =
    frames_of (StringTask.written s) ++ StringTask.frames_accepted acts.
Proof.
  revert s. induction acts as [|a acts IH]; intros s Hst Hrun.
  - injection Hrun as <-. simpl. by rewrite app_nil_r.
  - unfold StringTask.run in Hrun. simpl in Hrun.
    destruct (StringTask.step s a) as [s1|] eqn:Hstep; [|done].
    destruct s as [c w e p pr l]. unfold StringTask.stopped in Hst. simpl in Hst.
    apply orb_false_iff in Hst as [-> Hp].
    unfold StringTask.step in Hstep. simpl in Hstep.
    destruct a as [[[frame|]| |err]|[err|]|]; destruct p; simplify_eq;
      cbn [StringTask.frames_accepted];
      try (apply StringTask_stopped_run in Hrun as ->; [|done]; simpl;
           by rewrite ?frames_of_snoc_flush, ?app_nil_r).
    + apply IH in Hrun as ->; [|done]. simpl.
      by rewrite frames_of_snoc_frame, <- app_assoc.
    + by apply IH in Hrun as ->.
Qed.

Lemma string_task_frames (text : string) (acts : list StringTask.Action)
    (s : StringTask.State) :
  StringTask.run (StringTask.stringSynthesisTask text) acts = Some s →
  frames_of (StringTask.written s) = StringTask.frames_accepted acts.
Proof.
  intros Hrun.
  by apply (StringTask_forwarding_run acts (StringTask.stringSynthesisTask text) s) in Hrun.
Qed.

(** X1: the audio frames a whole-string task has written are, in the
    engine's order, exactly those the engine yielded before the loop
    stopped forwarding: a frame that arrives once [cancel()] was called,
    or after the end-of-stream marker, is never written. *)
Theorem string_task_forwards_frames_in_order
    (text : string) (acts : list StringTask.Action) (s : StringTask.State) :
  StringTask.run (StringTask.stringSynthesisTask text) acts = Some s →
  frames_of (StringTask.written s) = StringTask.frames_accepted acts.
Proof.
  intros Hrun.
  by apply (StringTask_forwarding_run acts (StringTask.stringSynthesisTask text) s) in Hrun.
Qed.

Lemma string_task_forwards_frames_in_order_witness :
  ∃ s : StringTask.State,
    StringTask.run (StringTask.stringSynthesisTask "hello world")
      [StringTask.Next (Yield (Audio 1)); StringTask.WriteSettled None;
       StringTask.Next (Yield (Audio 2)); StringTask.Cancel;
       StringTask.WriteSettled None;
       StringTask.Next (Yield (Audio 3)); StringTask.WriteSettled None] = Some s ∧
    StringTask.written s = [Frame 1; Frame 2; FLUSH_SENTINEL] ∧
    frames_of (StringTask.written s) = [1; 2].
Proof.
  eexists. split; [reflexivity|]. split; [reflexivity|].
  exact (string_task_forwards_frames_in_order "hello world"%string
           [StringTask.Next (Yield (Audio 1)); StringTask.WriteSettled None;
            StringTask.Next (Yield (Audio 2)); StringTask.Cancel;
            StringTask.WriteSettled None;
            StringTask.Next (Yield (Audio 3)); StringTask.WriteSettled None]
           _ eq_refl).
Defined.

Lemma StreamTask_feed_frame (s s' : StreamTask.State) (r : IterResult string) :
  StreamTask.feedText s r = Some s' →
  StreamTask.written s' = StreamTask.written s ∧
  StreamTask.relay s' = StreamTask.relay s ∧
  StreamTask.cancelled s' = StreamTask.cancelled s ∧
  StreamTask.writerLocked s' = StreamTask.writerLocked s.
Proof.
  unfold StreamTask.feedText. intros H.
  repeat case_match; simplify_eq; done.
Qed.

Lemma StreamTask_stopped_step (s s' : StreamTask.State) (a : StreamTask.Action) :
  StreamTask.relay_stopped s = true → StreamTask.step s a = Some s' →
  StreamTask.relay_stopped s' = true ∧
  frames_of (StreamTask.written s') = frames_of (StreamTask.written s).
Proof.
  intros Hst Hs. destruct a as [r|r|r|].
  3: { unfold StreamTask.step in Hs.
       apply StreamTask_feed_frame in Hs as (Hw & Hr & Hc & _).
       unfold StreamTask.relay_stopped in *. by rewrite Hw, Hr, Hc. }
  3: { injection Hs as <-. unfold StreamTask.relay_stopped in *. simpl.
       split; [done|reflexivity]. }
  all: destruct s as [c w e rl f pr l];
    unfold StreamTask.relay_stopped, StreamTask.step, StreamTask.readGeneratedAudio in *;
    simpl in *.
  - destruct r as [[frame|]| |err]; destruct rl; destruct c;
      simplify_eq; simpl in *; rewrite ?frames_of_snoc_flush; done.
  - destruct r as [err|]; destruct rl; destruct c;
      simplify_eq; simpl in *; rewrite ?frames_of_snoc_flush; done.
Qed.

Lemma StreamTask_stopped_run (acts : list StreamTask.Action) (s s' : StreamTask.State) :
  StreamTask.relay_stopped s = true → StreamTask.run s acts = Some s' →
  frames_of (StreamTask.written s') = frames_of (StreamTask.written s).
Proof.
  revert s. induction acts as [|a acts IH]; intros s Hst Hrun.
  - by injection Hrun as <-.
  - unfold StreamTask.run in Hrun. simpl in Hrun.
    destruct (StreamTask.step s a) as [s1|] eqn:Hstep; [|done].
    destruct (StreamTask_stopped_step s s1 a Hst Hstep) as [Hst1 <-].
    by apply IH.
Qed.

Lemma StreamTask_forwarding_run (acts : list StreamTask.Action) (s s' : StreamTask.State) :
  StreamTask.relay_stopped s = false → StreamTask.run s acts = Some s' →
  frames_of (StreamTask.written s') =
    frames_of (StreamTask.written s) ++ StreamTask.frames_accepted acts.
Proof.
  revert s. induction acts as [|a acts IH]; intros s Hst Hrun.
  - injection Hrun as <-. simpl. by rewrite app_nil_r.
  - unfold StreamTask.run in Hrun. simpl in Hrun.
    destruct (StreamTask.step s a) as [s1|] eqn:Hstep; [|done].
    destruct a as [r|r|r|].
    3: { unfold StreamTask.step in Hstep.
         apply StreamTask_feed_frame in Hstep as (Hw & Hr & Hc & _).
         cbn [StreamTask.frames_accepted]. rewrite <- Hw. apply IH; [|done].
         unfold StreamTask.relay_stopped in *. by rewrite Hr, Hc. }
    3: { injection Hstep as <-. cbn [StreamTask.frames_accepted].
         rewrite (StreamTask_stopped_run acts (StreamTask.cancel s) s'); [|done|done].
         simpl. by rewrite app_nil_r. }
    all: destruct s as [c w e rl f pr l];
      unfold StreamTask.relay_stopped in Hst; simpl in Hst;
      apply orb_false_iff in Hst as [-> Hp];
      unfold StreamTask.step, StreamTask.readGeneratedAudio in Hstep; simpl in Hstep.
    + destruct r as [[frame|]| |err]; destruct rl; simplify_eq;
        cbn [StreamTask.frames_accepted];
        try (apply StreamTask_stopped_run in Hrun as ->; [|done]; simpl;
             by rewrite ?frames_of_snoc_flush, ?app_nil_r).
      apply IH in Hrun as ->; [|done]. simpl.
      by rewrite frames_of_snoc_frame, <- app_assoc.
    + destruct r as [err|]; destruct rl; simplify_eq;
        cbn [StreamTask.frames_accepted];
        try (apply StreamTask_stopped_run in Hrun as ->; [|done]; simpl;
             by rewrite ?frames_of_snoc_flush, ?app_nil_r).
      by apply IH in Hrun as ->.
Qed.

(** X2: the audio frames the relay of an incremental-stream task has
    written are, in the engine's order, exactly those the engine yielded
    before the relay stopped forwarding, however the text feed is
    interleaved with it: a frame that arrives once [cancel()] was called,
    or after the end-of-stream marker, is never written. *)
Theorem stream_task_forwards_frames_in_order
    (acts : list StreamTask.Action) (s : StreamTask.State) :
  StreamTask.run StreamTask.streamSynthesisTask acts = Some s →
  frames_of (StreamTask.written s) = StreamTask.frames_accepted acts.
Proof.
  intros Hrun.
  by apply (StreamTask_forwarding_run acts StreamTask.streamSynthesisTask s) in Hrun.
Qed.

Lemma stream_task_forwards_frames_in_order_witness :
  ∃ s : StreamTask.State,
    StreamTask.run StreamTask.streamSynthesisTask
      [StreamTask.Text (Yield "a"%string); StreamTask.Next (Yield (Audio 1));
       StreamTask.WriteSettled None; StreamTask.Text (Yield "b"%string);
       StreamTask.Cancel; StreamTask.Next (Yield (Audio 2));
       StreamTask.Text (Yield "c"%string); StreamTask.WriteSettled None] = Some s ∧
    StreamTask.written s = [Frame 1; FLUSH_SENTINEL] ∧
    frames_of (StreamTask.written s) = [1].
Proof.
  eexists. split; [reflexivity|]. split; [reflexivity|].
  exact (stream_task_forwards_frames_in_order
           [StreamTask.Text (Yield "a"%string); StreamTask.Next (Yield (Audio 1));
            StreamTask.WriteSettled None; StreamTask.Text (Yield "b"%string);
            StreamTask.Cancel; StreamTask.Next (Yield (Audio 2));
            StreamTask.Text (Yield "c"%string); StreamTask.WriteSettled None]
           _ eq_refl).
Defined.

Lemma StringTask_step_engine (s s' : StringTask.State) (a : StringTask.Action) :
  StringTask.step s a = Some s' → StringTask.engine s' = StringTask.engine s.
Proof.
  unfold StringTask.step. intros H. repeat case_match; simplify_eq; done.
Qed.

(** X3: a whole-string task calls the input side of the engine's stream
    three times, before it reads any audio: the whole text is pushed as one
    chunk, then flush, then end-of-input.  Whatever happens afterwards,
    cancellation included, it never pushes or signals again. *)
Theorem string_task_engine_input_fixed
    (text : string) (acts : list StringTask.Action) (s : StringTask.State) :
  StringTask.run (StringTask.stringSynthesisTask text) acts = Some s →
  StringTask.engine s = [pushText text; flush; endInput].
Proof.
  apply (exec_invariant StringTask.step
           (λ s0, StringTask.engine s0 = [pushText text; flush; endInput])); [|done].
  intros s0 a s1 He Hs. by rewrite (StringTask_step_engine s0 s1 a Hs).
Qed.

Lemma string_task_engine_input_fixed_witness :
  ∃ s : StringTask.State,
    StringTask.run (StringTask.stringSynthesisTask "hello world")
      [StringTask.Cancel; StringTask.Next (Yield (Audio 1));
       StringTask.WriteSettled None] = Some s ∧
    StringTask.promise s = Fulfilled ∧
    StringTask.engine s = [pushText "hello world"; flush; endInput].
Proof.
  eexists. split; [reflexivity|]. split; [reflexivity|].
  exact (string_task_engine_input_fixed "hello world"%string
           [StringTask.Cancel; StringTask.Next (Yield (Audio 1));
            StringTask.WriteSettled None] _ eq_refl).
Defined.

Lemma StringTask_lock_step (s : StringTask.State) (a : StringTask.Action) (s' : StringTask.State) :
  StringTask.LockInv s → StringTask.step s a = Some s' → StringTask.LockInv s'.
Proof.
  destruct s as [c w e p pr l]. unfold StringTask.LockInv, StringTask.step. simpl.
  intros HI Hs.
  destruct a as [[[frame|]| |err]|[err|]|]; destruct p; try destruct c;
    simplify_eq; done.
Qed.

Lemma StringTask_reachable_lock (text : string) (acts : list StringTask.Action)
    (s : StringTask.State) :
  StringTask.run (StringTask.stringSynthesisTask text) acts = Some s →
  StringTask.LockInv s.
Proof.
  by apply (exec_invariant StringTask.step StringTask.LockInv StringTask_lock_step).
Qed.

Lemma StreamTask_lock_step (s : StreamTask.State) (a : StreamTask.Action) (s' : StreamTask.State) :
  StreamTask.LockInv s → StreamTask.step s a = Some s' → StreamTask.LockInv s'.
Proof.
  intros HI Hs. destruct a as [r|r|r|].
  3: { unfold StreamTask.step in Hs.
       apply StreamTask_feed_frame in Hs as (_ & Hr & _ & Hl).
       unfold StreamTask.LockInv in *. by rewrite Hr, Hl. }
  3: { by injection Hs as <-. }
  all: destruct s as [c w e rl f pr l];
    unfold StreamTask.LockInv, StreamTask.step, StreamTask.readGeneratedAudio in *;
    simpl in *.
  - destruct r as [[frame|]| |err]; destruct rl; try destruct c; simplify_eq; done.
  - destruct r as [err|]; destruct rl; simplify_eq; done.
Qed.

Lemma StreamTask_reachable_lock (acts : list StreamTask.Action) (s : StreamTask.State) :
  StreamTask.run StreamTask.streamSynthesisTask acts = Some s → StreamTask.LockInv s.
Proof.
  by apply (exec_invariant StreamTask.step StreamTask.LockInv StreamTask_lock_step).
Qed.

(** X4: the lock on the queue's writer is released exactly when the loop
    that writes has returned.  A whole-string task holds it as long as its
    promise is not resolved; in an incremental-stream task it follows the
    relay, so that the task's promise may be resolved with the writer still
    locked. *)
Theorem writer_released_on_return :
  (∀ (text : string) (acts : list StringTask.Action) (s : StringTask.State),
     StringTask.run (StringTask.stringSynthesisTask text) acts = Some s →
     (StringTask.writerLocked s = false ↔ StringTask.promise s = Fulfilled)) ∧
  (∀ (acts : list StreamTask.Action) (s : StreamTask.State),
     StreamTask.run StreamTask.streamSynthesisTask acts = Some s →
     (StreamTask.writerLocked s = false ↔ StreamTask.relay s = StreamTask.RReturned)) ∧
  (∃ (acts : list StreamTask.Action) (s : StreamTask.State),
     StreamTask.run StreamTask.streamSynthesisTask acts = Some s ∧
     StreamTask.promise s = Fulfilled ∧ StreamTask.writerLocked s = true).
Proof.
  split; [|split].
  - intros text acts s Hrun.
    apply StringTask_reachable_lock in Hrun as HL.
    apply StringTask_reachable_inv in Hrun as HI.
    unfold StringTask.LockInv in HL. unfold StringTask.Inv in HI.
    destruct (StringTask.pc s); destruct HI as [-> _]; rewrite HL; done.
  - intros acts s Hrun. apply StreamTask_reachable_lock in Hrun as HL.
    unfold StreamTask.LockInv in HL.
    destruct (StreamTask.relay s); rewrite HL; done.
  - exists [StreamTask.Text IterDone]. eexists. by split.
Qed.

Lemma writer_released_on_return_witness :
  (∃ s : StringTask.State,
     StringTask.run (StringTask.stringSynthesisTask "hi")
       [StringTask.Next (Yield END_OF_STREAM)] = Some s ∧
     StringTask.written s = [FLUSH_SENTINEL] ∧
     (StringTask.writerLocked s = false ↔ StringTask.promise s = Fulfilled) ∧
     StringTask.writerLocked s = true) ∧
  (∃ s : StreamTask.State,
     StreamTask.run StreamTask.streamSynthesisTask
       [StreamTask.Next IterDone; StreamTask.WriteSettled None] = Some s ∧
     (StreamTask.writerLocked s = false ↔ StreamTask.relay s = StreamTask.RReturned) ∧
     StreamTask.writerLocked s = false).
Proof.
  destruct writer_released_on_return as (Hstring & Hstream & _).
  split.
  - eexists. split; [reflexivity|]. split; [reflexivity|]. split; [|reflexivity].
    exact (Hstring "hi"%string [StringTask.Next (Yield END_OF_STREAM)] _ eq_refl).
  - eexists. split; [reflexivity|]. split; [|reflexivity].
    exact (Hstream [StreamTask.Next IterDone; StreamTask.WriteSettled None] _ eq_refl).
Defined.

(** X5: cancelling a task that has completed changes nothing that can be
    observed: whatever is scheduled after a whole-string task has returned,
    or after both loops of an incremental-stream task have, the queue and
    the engine's input stay as they are (no second Flush Marker, no second
    end-of-input) and the promise stays resolved. *)
Theorem cancel_after_completion_is_noop :
  (∀ (s s' : StringTask.State) (acts : list StringTask.Action),
     StringTask.pc s = StringTask.Returned →
     StringTask.run s acts = Some s' →
     StringTask.pc s' = StringTask.Returned ∧
     StringTask.written s' = StringTask.written s ∧
     StringTask.engine s' = StringTask.engine s ∧
     StringTask.promise s' = StringTask.promise s) ∧
  (∀ (s s' : StreamTask.State) (acts : list StreamTask.Action),
     StreamTask.relay s = StreamTask.RReturned →
     StreamTask.feed s = StreamTask.FReturned →
     StreamTask.run s acts = Some s' →
     StreamTask.relay s' = StreamTask.RReturned ∧
     StreamTask.feed s' = StreamTask.FReturned ∧
     StreamTask.written s' = StreamTask.written s ∧
     StreamTask.engine s' = StreamTask.engine s ∧
     StreamTask.promise s' = StreamTask.promise s).
Proof.
  split.
  - intros s s' acts. revert s. induction acts as [|a acts IH]; intros s Hpc Hrun.
    + by injection Hrun as <-.
    + unfold StringTask.run in Hrun. simpl in Hrun.
      destruct (StringTask.step s a) as [s1|] eqn:Hstep; [|done].
      unfold StringTask.step in Hstep. rewrite Hpc in Hstep.
      destruct a as [[[frame|]| |err]|[err|]|]; simplify_eq.
      destruct (IH (StringTask.cancel s)) as (? & ? & ? & ?); done.
  - intros s s' acts. revert s. induction acts as [|a acts IH]; intros s Hr Hf Hrun.
    + by injection Hrun as <-.
    + unfold StreamTask.run in Hrun. simpl in Hrun.
      destruct (StreamTask.step s a) as [s1|] eqn:Hstep; [|done].
      unfold StreamTask.step, StreamTask.readGeneratedAudio, StreamTask.feedText in Hstep.
      rewrite ?Hr, ?Hf in Hstep.
      destruct a as [[[frame|]| |err]|[err|]|r|]; simplify_eq.
      destruct (IH (StreamTask.cancel s)) as (? & ? & ? & ? & ?); done.
Qed.

Lemma cancel_after_completion_is_noop_witness :
  (∃ s s' : StringTask.State,
     StringTask.run (StringTask.stringSynthesisTask "hi")
       (StringTask.natural_schedule [1; 2]) = Some s ∧
     StringTask.run s [StringTask.Cancel; StringTask.Cancel] = Some s' ∧
     StringTask.written s' = [Frame 1; Frame 2; FLUSH_SENTINEL] ∧
     StringTask.promise s' = Fulfilled) ∧
  (∃ s s' : StreamTask.State,
     StreamTask.run StreamTask.streamSynthesisTask
       [StreamTask.Text IterDone; StreamTask.Next IterDone;
        StreamTask.WriteSettled None] = Some s ∧
     StreamTask.run s [StreamTask.Cancel] = Some s' ∧
     StreamTask.written s' = [FLUSH_SENTINEL] ∧
     StreamTask.engine s' = [flush; endInput]).
Proof.
  destruct cancel_after_completion_is_noop as (Hstring & Hstream).
  split.
  - eexists. eexists. split; [reflexivity|].
    match goal with
    | |- StringTask.run ?s0 ?acts = _ ∧ _ =>
        destruct (Hstring s0 _ acts eq_refl eq_refl) as (_ & Hw & _ & Hp)
    end.
    split; [reflexivity|]. split; [exact Hw | exact Hp].
  - eexists. eexists. split; [reflexivity|].
    match goal with
    | |- StreamTask.run ?s0 ?acts = _ ∧ _ =>
        destruct (Hstream s0 _ acts eq_refl eq_refl eq_refl) as (_ & _ & Hw & He & _)
    end.
    split; [reflexivity|]. split; [exact Hw | exact He].
Defined.

Lemma StringTask_threw_absorbs (acts : list StringTask.Action) (s s' : StringTask.State)
    (e : Err) :
  StringTask.pc s = StringTask.Threw e →
  StringTask.run s acts = Some s' →
  StringTask.pc s' = StringTask.Threw e ∧
  StringTask.written s' = StringTask.written s ∧
  StringTask.promise s' = StringTask.promise s ∧
  StringTask.writerLocked s' = StringTask.writerLocked s.
Proof.
  revert s. induction acts as [|a acts IH]; intros s Hpc Hrun.
  - by injection Hrun as <-.
  - unfold StringTask.run in Hrun. simpl in Hrun.
    destruct (StringTask.step s a) as [s1|] eqn:Hstep; [|done].
    unfold StringTask.step in Hstep. rewrite Hpc in Hstep.
    destruct a as [[[frame|]| |err]|[err|]|]; simplify_eq.
    destruct (IH (StringTask.cancel s)) as (? & ? & ? & ?); done.
Qed.

(** X6: a whole-string task in which the engine's stream or a queue write
    has failed stays as the failure left it: nothing more is written, its
    promise is never settled and the writer is never released.  When it is
    the engine's stream that failed, the queue holds the frames forwarded
    until then and never receives a Flush Marker. *)
Theorem string_task_failure_is_final
    (text : string) (acts later : list StringTask.Action) (e : Err) :
  (∀ s s' : StringTask.State,
     StringTask.run (StringTask.stringSynthesisTask text) acts = Some s →
     StringTask.pc s = StringTask.Threw e →
     StringTask.run s later = Some s' →
     StringTask.pc s' = StringTask.Threw e ∧
     StringTask.written s' = StringTask.written s ∧
     StringTask.promise s' = Pending ∧
     StringTask.writerLocked s' = true) ∧
  (∀ s' : StringTask.State,
     StringTask.run (StringTask.stringSynthesisTask text)
       (acts ++ StringTask.Next (IterThrow e) :: later) = Some s' →
     StringTask.written s' = Frame <$> StringTask.frames_accepted acts).
Proof.
  split.
  - intros s s' Hrun Hpc Hlater.
    apply StringTask_reachable_lock in Hrun as HL.
    apply StringTask_reachable_inv in Hrun as HI.
    unfold StringTask.LockInv in HL. unfold StringTask.Inv in HI.
    rewrite Hpc in HL, HI. destruct HI as [Hp _].
    destruct (StringTask_threw_absorbs later s s' e Hpc Hlater) as (? & ? & ? & ?).
    repeat split; congruence.
  - intros s' Hrun. unfold StringTask.run in Hrun.
    rewrite exec_app in Hrun. apply bind_Some in Hrun as (s & Hacts & Hrun).
    cbn [exec] in Hrun.
    destruct (StringTask.step s (StringTask.Next (IterThrow e))) as [s1|] eqn:Hstep;
      [|done].
    apply StringTask_reachable_inv in Hacts as HI.
    apply string_task_frames in Hacts as Hframes.
    unfold StringTask.step in Hstep. unfold StringTask.Inv in HI.
    destruct (StringTask.pc s) eqn:Hpc; simplify_eq.
    destruct HI as [_ [fs Hw]].
    destruct (StringTask_threw_absorbs later (StringTask.goto (StringTask.Threw e) s)
                s' e eq_refl Hrun) as (_ & -> & _).
    simpl. rewrite Hw in Hframes |- *.
    by rewrite frames_of_frames in Hframes; subst.
Qed.

Lemma string_task_failure_is_final_witness :
  (∃ s s' : StringTask.State,
     StringTask.run (StringTask.stringSynthesisTask "hi")
       [StringTask.Next (Yield (Audio 1)); StringTask.WriteSettled (Some "queue closed"%string)]
       = Some s ∧
     StringTask.pc s = StringTask.Threw "queue closed" ∧
     StringTask.run s [StringTask.Cancel] = Some s' ∧
     StringTask.written s' = [Frame 1] ∧
     StringTask.promise s' = Pending ∧
     StringTask.writerLocked s' = true) ∧
  (∃ s' : StringTask.State,
     StringTask.run (StringTask.stringSynthesisTask "hi")
       ([StringTask.Next (Yield (Audio 1)); StringTask.WriteSettled None]
          ++ StringTask.Next (IterThrow "tts failed") :: [StringTask.Cancel]) = Some s' ∧
     StringTask.written s' = [Frame 1]).
Proof.
  split.
  - eexists. eexists. split; [reflexivity|]. split; [reflexivity|].
    split; [reflexivity|].
    match goal with
    | |- StringTask.written ?s1 = _ ∧ _ =>
        destruct (proj1 (string_task_failure_is_final "hi"%string
                           [StringTask.Next (Yield (Audio 1));
                            StringTask.WriteSettled (Some "queue closed"%string)]
                           [StringTask.Cancel] "queue closed"%string)
                    _ s1 eq_refl eq_refl eq_refl) as (_ & Hw & Hp & Hl)
    end.
    split; [exact Hw|]. split; [exact Hp | exact Hl].
  - eexists. split; [reflexivity|].
    exact (proj2 (string_task_failure_is_final "hi"%string
                    [StringTask.Next (Yield (Audio 1)); StringTask.WriteSettled None]
                    [StringTask.Cancel] "tts failed"%string) _ eq_refl).
Defined.

Lemma stream_task_frames (acts : list StreamTask.Action) (s : StreamTask.State) :
  StreamTask.run StreamTask.streamSynthesisTask acts = Some s →
  frames_of (StreamTask.written s) = StreamTask.frames_accepted acts.
Proof.
  intros Hrun.
  by apply (StreamTask_forwarding_run acts StreamTask.streamSynthesisTask s) in Hrun.
Qed.

Lemma StreamTask_relay_threw_absorbs (acts : list StreamTask.Action)
    (s s' : StreamTask.State) (e : Err) :
  StreamTask.relay s = StreamTask.RThrew e →
  StreamTask.run s acts = Some s' →
  StreamTask.relay s' = StreamTask.RThrew e ∧
  StreamTask.written s' = StreamTask.written s ∧
  StreamTask.writerLocked s' = StreamTask.writerLocked s.
Proof.
  revert s. induction acts as [|a acts IH]; intros s Hr Hrun.
  - by injection Hrun as <-.
  - unfold StreamTask.run in Hrun. simpl in Hrun.
    destruct (StreamTask.step s a) as [s1|] eqn:Hstep; [|done].
    destruct a as [r|r|r|]; unfold StreamTask.step in Hstep.
    + unfold StreamTask.readGeneratedAudio in Hstep. rewrite Hr in Hstep.
      by destruct r as [[frame|]| |err].
    + unfold StreamTask.readGeneratedAudio in Hstep. rewrite Hr in Hstep.
      by destruct r as [err|].
    + apply StreamTask_feed_frame in Hstep as (Hw & Hr1 & _ & Hl).
      destruct (IH s1) as (? & ? & ?); [congruence | done |].
      repeat split; congruence.
    + injection Hstep as <-.
      destruct (IH (StreamTask.cancel s)) as (? & ? & ?); done.
Qed.

(** X7: when the engine's stream or a queue write fails in the audio relay
    of an incremental-stream task, the relay is over: whatever the feed
    does afterwards, nothing more is written and the writer is never
    released.  When it is the engine's stream that failed, the queue holds
    the frames forwarded until then and never receives a Flush Marker. *)
Theorem stream_relay_failure_is_final
    (acts later : list StreamTask.Action) (e : Err) :
  (∀ s s' : StreamTask.State,
     StreamTask.run StreamTask.streamSynthesisTask acts = Some s →
     StreamTask.relay s = StreamTask.RThrew e →
     StreamTask.run s later = Some s' →
     StreamTask.relay s' = StreamTask.RThrew e ∧
     StreamTask.written s' = StreamTask.written s ∧
     StreamTask.writerLocked s' = true) ∧
  (∀ s' : StreamTask.State,
     StreamTask.run StreamTask.streamSynthesisTask
       (acts ++ StreamTask.Next (IterThrow e) :: later) = Some s' →
     StreamTask.written s' = Frame <$> StreamTask.frames_accepted acts).
Proof.
  split.
  - intros s s' Hrun Hr Hlater.
    apply StreamTask_reachable_lock in Hrun as HL.
    unfold StreamTask.LockInv in HL. rewrite Hr in HL.
    destruct (StreamTask_relay_threw_absorbs later s s' e Hr Hlater) as (? & ? & ?).
    repeat split; congruence.
  - intros s' Hrun. unfold StreamTask.run in Hrun.
    rewrite exec_app in Hrun. apply bind_Some in Hrun as (s & Hacts & Hrun).
    cbn [exec] in Hrun.
    destruct (StreamTask.step s (StreamTask.Next (IterThrow e))) as [s1|] eqn:Hstep;
      [|done].
    pose proof (StreamTask_reachable_inv _ _ Hacts) as (_ & _ & HI).
    apply stream_task_frames in Hacts as Hframes.
    unfold StreamTask.step, StreamTask.readGeneratedAudio in Hstep.
    destruct (StreamTask.relay s) eqn:Hr; simplify_eq.
    destruct HI as [fs Hw].
    destruct (StreamTask_relay_threw_absorbs later
                (StreamTask.relay_goto (StreamTask.RThrew e) s) s' e eq_refl Hrun)
      as (_ & -> & _).
    simpl. rewrite Hw in Hframes |- *.
    by rewrite frames_of_frames in Hframes; subst.
Qed.

Lemma stream_relay_failure_is_final_witness :
  (∃ s s' : StreamTask.State,
     StreamTask.run StreamTask.streamSynthesisTask
       [StreamTask.Next (Yield (Audio 1)); StreamTask.WriteSettled (Some "queue closed"%string)]
       = Some s ∧
     StreamTask.relay s = StreamTask.RThrew "queue closed" ∧
     StreamTask.run s [StreamTask.Text IterDone] = Some s' ∧
     StreamTask.written s' = [Frame 1] ∧
     StreamTask.promise s' = Fulfilled ∧
     StreamTask.writerLocked s' = true) ∧
  (∃ s' : StreamTask.State,
     StreamTask.run StreamTask.streamSynthesisTask
       ([StreamTask.Text (Yield "a"%string); StreamTask.Next (Yield (Audio 1));
         StreamTask.WriteSettled None]
          ++ StreamTask.Next (IterThrow "tts failed") :: [StreamTask.Text IterDone])
       = Some s' ∧
     StreamTask.written s' = [Frame 1]).
Proof.
  split.
  - eexists. eexists. split; [reflexivity|]. split; [reflexivity|].
    split; [reflexivity|].
    match goal with
    | |- StreamTask.written ?s1 = _ ∧ _ =>
        destruct (proj1 (stream_relay_failure_is_final
                           [StreamTask.Next (Yield (Audio 1));
                            StreamTask.WriteSettled (Some "queue closed"%string)]
                           [StreamTask.Text IterDone] "queue closed"%string)
                    _ s1 eq_refl eq_refl eq_refl) as (_ & Hw & Hl)
    end.
    split; [exact Hw|]. split; [reflexivity | exact Hl].
  - eexists. split; [reflexivity|].
    exact (proj2 (stream_relay_failure_is_final
                    [StreamTask.Text (Yield "a"%string); StreamTask.Next (Yield (Audio 1));
                     StreamTask.WriteSettled None]
                    [StreamTask.Text IterDone] "tts failed"%string) _ eq_refl).
Defined.

(** X8: an incremental-stream task notices a cancellation only when its
    text source yields or ends: as long as the source does neither,
    whatever the engine does and however often [cancel()] is called, no
    flush and no end-of-input is sent to the engine and the task's promise
    stays pending. *)
Theorem stream_task_waits_for_text_source
    (acts : list StreamTask.Action) (s : StreamTask.State) :
  forallb (λ a, negb (StreamTask.is_text a)) acts = true →
  StreamTask.run StreamTask.streamSynthesisTask acts = Some s →
  StreamTask.feed s = StreamTask.FAwaitText ∧
  StreamTask.promise s = Pending ∧
  StreamTask.engine s = [].
Proof.
  intros Hno.
  assert (∀ s0, StreamTask.feed s0 = StreamTask.FAwaitText →
                StreamTask.run s0 acts = Some s →
                StreamTask.feed s = StreamTask.feed s0 ∧
                StreamTask.promise s = StreamTask.promise s0 ∧
                StreamTask.engine s = StreamTask.engine s0) as Hgen.
  { induction acts as [|a acts IH]; intros s0 Hf Hrun.
    - by injection Hrun as <-.
    - unfold StreamTask.run in Hrun. simpl in Hrun, Hno.
      apply andb_true_iff in Hno as [Ha Hno].
      destruct (StreamTask.step s0 a) as [s1|] eqn:Hstep; [|done].
      destruct a as [r|r|r|]; [| |done|]; unfold StreamTask.step in Hstep.
      + apply StreamTask_relay_frame in Hstep as (He & Hf1 & _ & Hp).
        destruct (IH Hno s1) as (? & ? & ?); [congruence | done |].
        repeat split; congruence.
      + apply StreamTask_relay_frame in Hstep as (He & Hf1 & _ & Hp).
        destruct (IH Hno s1) as (? & ? & ?); [congruence | done |].
        repeat split; congruence.
      + injection Hstep as <-.
        destruct (IH Hno (StreamTask.cancel s0)) as (? & ? & ?); done. }
  intros Hrun. by destruct (Hgen StreamTask.streamSynthesisTask eq_refl Hrun) as (-> & -> & ->).
Qed.

Lemma stream_task_waits_for_text_source_witness :
  ∃ s : StreamTask.State,
    StreamTask.run StreamTask.streamSynthesisTask
      [StreamTask.Cancel; StreamTask.Next (Yield (Audio 1)); StreamTask.WriteSettled None;
       StreamTask.Cancel] = Some s ∧
    StreamTask.relay s = StreamTask.RReturned ∧
    StreamTask.written s = [FLUSH_SENTINEL] ∧
    StreamTask.feed s = StreamTask.FAwaitText ∧
    StreamTask.promise s = Pending ∧
    StreamTask.engine s = [].
Proof.
  eexists. split; [reflexivity|]. split; [reflexivity|]. split; [reflexivity|].
  exact (stream_task_waits_for_text_source
           [StreamTask.Cancel; StreamTask.Next (Yield (Audio 1));
            StreamTask.WriteSettled None; StreamTask.Cancel] _ eq_refl eq_refl).
Defined.

(** ** Further properties of the supervising task *)

Lemma Supervisor_variant_for_cancel (src : SpeechSource) (v : Supervisor.Variant) :
  Supervisor.variant_for src v → Supervisor.variant_for src (Supervisor.variant_cancel v).
Proof. by destruct src as [text|[e|text]|]; destruct v. Qed.

Lemma Supervisor_source_step (src : SpeechSource) (s : Supervisor.State)
    (a : Supervisor.Action) (s' : Supervisor.State) :
  Supervisor.SourceInv src s → Supervisor.step s a = Some s' →
  Supervisor.SourceInv src s'.
Proof.
  destruct s as [src0 int tk p pr ic]. unfold Supervisor.SourceInv, Supervisor.step.
  simpl. intros (-> & Hpc & Hv) Hs. destruct a as [| | |a|a|].
  - destruct p; simplify_eq. unfold Supervisor.source_settled. simpl.
    destruct src as [text|[e|text]|]; simpl; (split; [done|]); split;
      try (by right; right; eexists);
      try (by right; left; eexists);
      try (by intros v [= <-]); done.
  - simplify_eq. simpl. done.
  - simplify_eq. simpl. split; [done|]. split.
    + destruct Hpc as [?|[?|[v ->]]]; [by left | by right; left |].
      right; right. by eexists.
    + intros v Heq. destruct tk as [v0|]; [|done]. simpl in Heq.
      injection Heq as <-. by apply Supervisor_variant_for_cancel, Hv.
  - destruct a as [r|r|]; try done;
      (destruct tk as [[t|t]|]; try done);
      (destruct (StringTask.step t _) as [t'|] eqn:Hstep; [|done]);
      simpl in Hs; simplify_eq; simpl; (split; [done|]);
      (split; [by right; right; eexists|]);
      intros v [= <-]; specialize (Hv _ eq_refl);
      apply StringTask_step_engine in Hstep;
      destruct src as [text|[e|text]|]; simpl in *; congruence.
  - destruct a as [r|r|r|]; try done;
      (destruct tk as [[t|t]|]; try done);
      (destruct (StreamTask.step t _) as [t'|] eqn:Hstep; [|done]);
      simpl in Hs; simplify_eq; simpl; (split; [done|]);
      (split; [by right; right; eexists|]);
      intros v [= <-]; specialize (Hv _ eq_refl);
      by destruct src as [text|[e|text]|].
  - destruct p; try done. destruct tk as [v|]; [|done].
    destruct (Supervisor.race_decided _ v); [|done]. simplify_eq. simpl.
    split; [done|]. split; [by right; right; eexists|].
    intros v' [= <-]. specialize (Hv _ eq_refl).
    destruct int; [by apply Supervisor_variant_for_cancel | done].
Qed.

Lemma Supervisor_reachable_source (src : SpeechSource) (acts : list Supervisor.Action)
    (s : Supervisor.State) :
  Supervisor.run (Supervisor.synthesize_task src) acts = Some s →
  Supervisor.SourceInv src s.
Proof.
  apply (exec_invariant Supervisor.step (Supervisor.SourceInv src)
           (Supervisor_source_step src)).
  split; [done|]. split; [by left|]. done.
Qed.

(** X9: the supervising task decides the variant once, from the settled
    source: a string, or a promise fulfilled with a string, is synthesized
    by a whole-string task that was given exactly that text, an iterable by
    an incremental-stream task; neither interruption nor cancellation ever
    changes the source, the kind of the task or the text it was given. *)
Theorem supervisor_dispatches_on_source
    (src : SpeechSource) (acts : list Supervisor.Action) (s : Supervisor.State)
    (v : Supervisor.Variant) :
  Supervisor.run (Supervisor.synthesize_task src) acts = Some s →
  Supervisor.task s = Some v →
  Supervisor.ttsSource s = src ∧ Supervisor.variant_for src v.
Proof.
  intros Hrun Hv. apply Supervisor_reachable_source in Hrun as (Hsrc & _ & Hfor).
  split; [done | by apply Hfor].
Qed.

Lemma supervisor_dispatches_on_source_witness :
  ∃ (s : Supervisor.State) (t : StringTask.State),
    Supervisor.run (Supervisor.synthesize_task (SrcPromise (inr "hello"%string)))
      [Supervisor.Interrupt; Supervisor.SourceSettled; Supervisor.Cancel;
       Supervisor.StringAct (StringTask.Next (Yield (Audio 1)))] = Some s ∧
    Supervisor.task s = Some (Supervisor.StringVariant t) ∧
    StringTask.engine t = [pushText "hello"; flush; endInput].
Proof.
  eexists. eexists. split; [reflexivity|]. split; [reflexivity|].
  exact (proj2 (supervisor_dispatches_on_source (SrcPromise (inr "hello"%string))
                  [Supervisor.Interrupt; Supervisor.SourceSettled; Supervisor.Cancel;
                   Supervisor.StringAct (StringTask.Next (Yield (Audio 1)))]
                  _ _ eq_refl eq_refl)).
Defined.

(** X10: when the promise given as the source of a handle is rejected, the
    supervising task launches no synthesis task and never settles: whatever
    happens afterwards, interruption and cancellation included, nothing is
    sent to the engine or written to the handle's queue, and the promise of
    the supervising task stays pending. *)
Theorem rejected_source_never_settles
    (e : Err) (acts : list Supervisor.Action) (s : Supervisor.State) :
  Supervisor.run (Supervisor.synthesize_task (SrcPromise (inl e))) acts = Some s →
  Supervisor.task s = None ∧
  Supervisor.promise s = Pending ∧
  (Supervisor.pc s = Supervisor.AwaitSource ∨ Supervisor.pc s = Supervisor.Threw e).
Proof.
  intros Hrun.
  apply Supervisor_reachable_source in Hrun as Hsrc.
  apply Supervisor_reachable_inv in Hrun as HI.
  destruct Hsrc as (_ & Hpc & Hfor).
  assert (Supervisor.task s = None) as Hnone.
  { destruct (Supervisor.task s) as [v|] eqn:Hv; [|done].
    specialize (Hfor v eq_refl). by destruct v. }
  split; [done|]. unfold Supervisor.Inv in HI.
  destruct Hpc as [Hpc|[(e' & Hpc & [= <-])|[v Hv]]]; [| |congruence];
    rewrite Hpc in HI; destruct HI as [Hp _]; split; auto.
Qed.

Lemma rejected_source_never_settles_witness :
  ∃ s : Supervisor.State,
    Supervisor.run (Supervisor.synthesize_task (SrcPromise (inl "llm failed"%string)))
      [Supervisor.SourceSettled; Supervisor.Interrupt; Supervisor.Cancel] = Some s ∧
    Supervisor.intFutDone s = true ∧
    Supervisor.task s = None ∧
    Supervisor.promise s = Pending.
Proof.
  eexists. split; [reflexivity|]. split; [reflexivity|].
  destruct (rejected_source_never_settles "llm failed"%string
              [Supervisor.SourceSettled; Supervisor.Interrupt; Supervisor.Cancel]
              _ eq_refl) as (Ht & Hp & _).
  split; [exact Ht | exact Hp].
Defined.



Lemma StringTask_cancelled_stable (t t' : StringTask.State) (a : StringTask.Action) :
  StringTask.cancelled t = true → StringTask.step t a = Some t' →
  StringTask.cancelled t' = true.
Proof.
  unfold StringTask.step. intros Hc H. repeat case_match; simplify_eq; done.
Qed.

Lemma StreamTask_cancelled_stable (t t' : StreamTask.State) (a : StreamTask.Action) :
  StreamTask.cancelled t = true → StreamTask.step t a = Some t' →
  StreamTask.cancelled t' = true.
Proof.
  intros Hc Hs. destruct a as [r|r|r|]; unfold StreamTask.step in Hs.
  - apply StreamTask_relay_frame in Hs as (_ & _ & -> & _). done.
  - apply StreamTask_relay_frame in Hs as (_ & _ & -> & _). done.
  - apply StreamTask_feed_frame in Hs as (_ & _ & -> & _). done.
  - by injection Hs as <-.
Qed.

Lemma Supervisor_resolved_step (s : Supervisor.State) (a : Supervisor.Action)
    (s' : Supervisor.State) :
  Supervisor.ResolvedInv s → Supervisor.step s a = Some s' → Supervisor.ResolvedInv s'.
Proof.
  intros [HI HR] Hs. split; [by eapply Supervisor_step_inv|].
  destruct s as [src int tk p pr ic]. unfold Supervisor.Inv in HI.
  unfold Supervisor.step in Hs. simpl in *. destruct a as [| | |a|a|].
  - destruct p; simplify_eq. unfold Supervisor.source_settled. simpl.
    by destruct src as [text|[e|text]|].
  - simplify_eq. simpl. done.
  - simplify_eq. simpl. destruct p; try done.
    destruct HR as (v & -> & _). eexists. split; [done|]. right.
    by destruct v.
  - destruct a as [r|r|]; try done;
      (destruct tk as [[t|t]|]; try done);
      (destruct (StringTask.step t _) as [t'|] eqn:Hstep; [|done]);
      simpl in Hs; simplify_eq; simpl; (destruct p; try done);
      destruct HI as (_ & v0 & Hv0 & HvI & _);
      destruct HR as (v & Hv & Hd); simplify_eq;
      (eexists; split; [done|]); simpl in Hd |- *;
      (destruct Hd as [Hd|Hd];
       [left; exact (StringTask_fulfilled_stable t t' _ HvI Hd Hstep)
       |right; exact (StringTask_cancelled_stable t t' _ Hd Hstep)]).
  - destruct a as [r|r|r|]; try done;
      (destruct tk as [[t|t]|]; try done);
      (destruct (StreamTask.step t _) as [t'|] eqn:Hstep; [|done]);
      simpl in Hs; simplify_eq; simpl; (destruct p; try done);
      destruct HI as (_ & v0 & Hv0 & HvI & _);
      destruct HR as (v & Hv & Hd); simplify_eq;
      (eexists; split; [done|]); simpl in Hd |- *;
      (destruct Hd as [Hd|Hd];
       [left; exact (StreamTask_fulfilled_stable t t' _ HvI Hd Hstep)
       |right; exact (StreamTask_cancelled_stable t t' _ Hd Hstep)]).
  - destruct p; try done. destruct tk as [v|]; [|done].
    destruct (Supervisor.race_decided _ v) eqn:Hrace; [|done].
    simplify_eq. simpl. eexists. split; [done|].
    unfold Supervisor.race_decided in Hrace. simpl in Hrace.
    destruct int; simpl.
    + right. by destruct v.
    + left. rewrite orb_false_r in Hrace. by apply bool_decide_eq_true in Hrace.
Qed.

Lemma Supervisor_reachable_resolved (src : SpeechSource) (acts : list Supervisor.Action)
    (s : Supervisor.State) :
  Supervisor.run (Supervisor.synthesize_task src) acts = Some s →
  Supervisor.ResolvedInv s.
Proof.
  apply (exec_invariant Supervisor.step Supervisor.ResolvedInv Supervisor_resolved_step).
  split; [apply Supervisor_start_inv | done].
Qed.

(** After the supervising task has returned, a whole-string task that no
    longer forwards frames never forwards one again. *)
Lemma Supervisor_returned_stopped (later : list Supervisor.Action)
    (s s' : Supervisor.State) (t t' : StringTask.State) :
  Supervisor.pc s = Supervisor.Returned →
  Supervisor.task s = Some (Supervisor.StringVariant t) →
  StringTask.stopped t = true →
  Supervisor.run s later = Some s' →
  Supervisor.task s' = Some (Supervisor.StringVariant t') →
  frames_of (StringTask.written t') = frames_of (StringTask.written t).
Proof.
  revert s t. induction later as [|a later IH]; intros s t Hpc Ht Hst Hrun Ht'.
  - injection Hrun as <-. congruence.
  - unfold Supervisor.run in Hrun. simpl in Hrun.
    destruct (Supervisor.step s a) as [s1|] eqn:Hstep; [|done].
    unfold Supervisor.step in Hstep. destruct a as [| | |a|a|].
    + by rewrite Hpc in Hstep.
    + injection Hstep as <-. by apply (IH (Supervisor.interrupt s) t).
    + injection Hstep as <-.
      change (StringTask.written t) with (StringTask.written (StringTask.cancel t)).
      apply (IH (Supervisor.cancel s)); try done.
      simpl. by rewrite Ht.
    + rewrite Ht in Hstep. destruct a as [r|r|]; try done;
        (destruct (StringTask.step t _) as [t1|] eqn:Hs1; [|done]);
        simpl in Hstep; injection Hstep as <-;
        destruct (StringTask_stopped_step t t1 _ Hst Hs1) as [Hst1 <-];
        by apply (IH (Supervisor.with_task (Supervisor.StringVariant t1) s) t1).
    + rewrite Ht in Hstep. by destruct a.
    + by rewrite Hpc in Hstep.
Qed.

(** X12: once the supervising task of a whole-string utterance has
    resolved, through completion, interruption or cancellation, no further
    audio frame of that utterance is written to the queue: the task it
    supervises has returned or has its cancellation flag set, and what it
    may still write is its Flush Marker. *)
Theorem no_audio_after_supervisor_resolves
    (src : SpeechSource) (acts later : list Supervisor.Action)
    (s s' : Supervisor.State) (t t' : StringTask.State) :
  Supervisor.run (Supervisor.synthesize_task src) acts = Some s →
  Supervisor.promise s = Fulfilled →
  Supervisor.task s = Some (Supervisor.StringVariant t) →
  Supervisor.run s later = Some s' →
  Supervisor.task s' = Some (Supervisor.StringVariant t') →
  frames_of (StringTask.written t') = frames_of (StringTask.written t) ∧
  flush_count (StringTask.written t') ≤ 1.
Proof.
  intros Hrun Hp Ht Hlater Ht'.
  assert (Supervisor.run (Supervisor.synthesize_task src) (acts ++ later) = Some s')
    as Hall.
  { unfold Supervisor.run in *. by rewrite exec_app, Hrun. }
  split.
  - apply Supervisor_reachable_resolved in Hrun as [HI HR].
    unfold Supervisor.Inv in HI.
    destruct (Supervisor.pc s) eqn:Hpc; destruct HI as [Hq HI]; try congruence.
    destruct HI as (v0 & Hv0 & HvI & _). destruct HR as (v & Hv & Hd).
    simplify_eq. simpl in *.
    apply (Supervisor_returned_stopped later s s' t t'); try done.
    unfold StringTask.stopped. destruct Hd as [Hd|Hd]; [|by rewrite Hd].
    unfold StringTask.Inv in HvI.
    destruct (StringTask.pc t); destruct HvI as [Hq' _]; try congruence.
    by rewrite orb_true_r.
  - apply Supervisor_reachable_inv in Hall as HI. unfold Supervisor.Inv in HI.
    destruct (Supervisor.pc s'); destruct HI as [_ HI]; try congruence.
    + destruct HI as (v & Hv & HvI). simplify_eq.
      by apply StringTask_inv_flush_count.
    + destruct HI as (v & Hv & HvI & _). simplify_eq.
      by apply StringTask_inv_flush_count.
Qed.

Lemma no_audio_after_supervisor_resolves_witness :
  ∃ (s s' : Supervisor.State) (t t' : StringTask.State),
    Supervisor.run (Supervisor.synthesize_task (SrcString "hello"))
      [Supervisor.SourceSettled;
       Supervisor.StringAct (StringTask.Next (Yield (Audio 1)));
       Supervisor.Interrupt; Supervisor.RaceSettled] = Some s ∧
    Supervisor.promise s = Fulfilled ∧
    Supervisor.task s = Some (Supervisor.StringVariant t) ∧
    Supervisor.run s
      [Supervisor.StringAct (StringTask.WriteSettled None);
       Supervisor.StringAct (StringTask.Next (Yield (Audio 2)));
       Supervisor.StringAct (StringTask.WriteSettled None)] = Some s' ∧
    Supervisor.task s' = Some (Supervisor.StringVariant t') ∧
    StringTask.written t = [Frame 1] ∧
    StringTask.written t' = [Frame 1; FLUSH_SENTINEL] ∧
    frames_of (StringTask.written t') = frames_of (StringTask.written t).
Proof.
  eexists. eexists. eexists. eexists.
  split; [reflexivity|]. split; [reflexivity|]. split; [reflexivity|].
  split; [reflexivity|]. split; [reflexivity|]. split; [reflexivity|].
  split; [reflexivity|].
  exact (proj1 (no_audio_after_supervisor_resolves (SrcString "hello")
                  [Supervisor.SourceSettled;
                   Supervisor.StringAct (StringTask.Next (Yield (Audio 1)));
                   Supervisor.Interrupt; Supervisor.RaceSettled]
                  [Supervisor.StringAct (StringTask.WriteSettled None);
                   Supervisor.StringAct (StringTask.Next (Yield (Audio 2)));
                   Supervisor.StringAct (StringTask.WriteSettled None)]
                  _ _ _ _ eq_refl eq_refl eq_refl eq_refl eq_refl)).
Defined.

(** ** Further properties of the synthesis handle *)

Section HandleCalls.

Context {Playout : Type}.
Variable agentPlayout_play : string → Playout → (Err + Handle.PlayoutHandle) * Playout.
Variable playHandle_interrupt : Handle.PlayoutHandle → Playout → Playout.

Abbreviation World' := (@Handle.World Playout).
Abbreviation play' := (Handle.play agentPlayout_play).
Abbreviation interrupt' := (Handle.interrupt playHandle_interrupt).
Abbreviation call' := (Handle.call agentPlayout_play playHandle_interrupt).
Abbreviation calls' := (Handle.calls agentPlayout_play playHandle_interrupt).

Lemma Handle_calls_invariant (P : World' → Prop) :
  (∀ w c, P w → P (call' w c)) → ∀ cs w, P w → P (calls' w cs).
Proof.
  intros Hstep cs. induction cs as [|c cs IH]; intros w HP; [done|].
  unfold Handle.calls. simpl. apply IH. by apply Hstep.
Qed.

Lemma Handle_last_assigned_snoc (tr : list Handle.Effect) (e : Handle.Effect) :
  Handle.last_assigned (tr ++ [e]) =
    match e with
    | Handle.EAssignPlayHandle ph => Some ph
    | _ => Handle.last_assigned tr
    end.
Proof.
  unfold Handle.last_assigned. rewrite omap_app.
  destruct e; simpl; rewrite ?app_nil_r; try done. apply last_snoc.
Qed.

Lemma Handle_forward_call (w : World') (c : Handle.Call) :
  Handle.ForwardInv w → Handle.ForwardInv (call' w c).
Proof.
  intros HI. pose proof HI as [Hlast Hfw].
  assert (Handle.interrupted w = false →
          ∀ ph, Handle.EPlayHandleInterrupt ph ∉ Handle.trace w) as Hnone.
  { intros Hi ph Hin. apply Hfw in Hin as [Hi' _]. congruence. }
  destruct c; simpl.
  - unfold Handle.play. destruct (Handle.interrupted w) eqn:Hi; [exact HI|].
    destruct (agentPlayout_play _ _) as [[e|ph] p']; split; simpl.
    + by rewrite Handle_last_assigned_snoc.
    + intros ph [Hin|Hin%list_elem_of_singleton]%elem_of_app; [|done].
      by destruct (Hnone eq_refl ph).
    + change (Handle.trace w ++ [Handle.EPlayoutPlay (Handle.speechId (Handle.handle w));
                                 Handle.EAssignPlayHandle ph])
        with (Handle.trace w ++ [Handle.EPlayoutPlay (Handle.speechId (Handle.handle w))]
                ++ [Handle.EAssignPlayHandle ph]).
      by rewrite app_assoc, Handle_last_assigned_snoc.
    + intros ph' [Hin|Hin]%elem_of_app; [by destruct (Hnone eq_refl ph')|].
      apply elem_of_cons in Hin as [?|Hin%list_elem_of_singleton]; done.
  - unfold Handle.interrupt. destruct (Handle.interrupted w) eqn:Hi; [exact HI|].
    unfold Handle.set_interrupt_signal, Handle.forward_interrupt, Handle.log_debug.
    simpl. destruct (Handle.playHandle (Handle.handle w)) as [ph|] eqn:Hph;
      split; simpl; rewrite ?Hph.
    + rewrite !Handle_last_assigned_snoc. simpl. congruence.
    + intros ph'. rewrite !elem_of_app, !list_elem_of_singleton.
      intros [[[Hin|?]|?]|?]; simplify_eq; [|done].
      by destruct (Hnone eq_refl ph').
    + rewrite !Handle_last_assigned_snoc. simpl. congruence.
    + intros ph'. rewrite !elem_of_app, !list_elem_of_singleton.
      intros [[Hin|?]|?]; simplify_eq.
      by destruct (Hnone eq_refl ph').
Qed.

(** X13: [#playHandle] is always the playout handle returned by the last
    call to [play()] that succeeded, and [interrupt()] forwards the
    interruption to that handle only: when [play()] was called more than
    once, the playout handles of the earlier calls are never interrupted
    through the synthesis handle. *)
Theorem interrupt_reaches_latest_playout_handle
    (id : string) (src : SpeechSource) (p : Playout) (cs : list Handle.Call)
    (ph : Handle.PlayoutHandle) :
  let w := calls' (Handle.new id src p) cs in
  Handle.playHandle (Handle.handle w) = Handle.last_assigned (Handle.trace w) ∧
  (Handle.EPlayHandleInterrupt ph ∈ Handle.trace w →
   Handle.last_assigned (Handle.trace w) = Some ph).
Proof.
  intros w.
  assert (Handle.ForwardInv w) as [Hlast Hfw].
  { apply Handle_calls_invariant; [apply Handle_forward_call|].
    split; [done|]. intros ph' Hin. by apply elem_of_nil in Hin. }
  split; [done|]. intros Hin. apply Hfw in Hin as [_ Hph]. congruence.
Qed.

Lemma Handle_filter_snoc (f : Handle.Effect → bool) (tr : list Handle.Effect)
    (e : Handle.Effect) :
  length (filter f (tr ++ [e])) = length (filter f tr) + (if f e then 1 else 0).
Proof.
  rewrite filter_app, length_app. f_equal.
  destruct (f e) eqn:E.
  - rewrite filter_cons_True; [done | by apply Is_true_true].
  - rewrite filter_cons_False; [done | by apply Is_true_false].
Qed.

Lemma Handle_oneshot_call (w : World') (c : Handle.Call) :
  Handle.OneShotInv w → Handle.OneShotInv (call' w c).
Proof.
  intros HI. pose proof HI as [Hres Hfw].
  unfold Handle.resolutions, Handle.forwards in Hres, Hfw.
  destruct c; simpl.
  - unfold Handle.play. destruct (Handle.interrupted w) eqn:Hi; [exact HI|].
    unfold Handle.interrupted in Hi.
    destruct (agentPlayout_play _ _) as [[e|ph] p'];
      unfold Handle.OneShotInv, Handle.resolutions, Handle.forwards, Handle.interrupted;
      simpl; rewrite Hi.
    + rewrite !Handle_filter_snoc. simpl. lia.
    + change (Handle.trace w ++ [Handle.EPlayoutPlay (Handle.speechId (Handle.handle w));
                                 Handle.EAssignPlayHandle ph])
        with (Handle.trace w ++ [Handle.EPlayoutPlay (Handle.speechId (Handle.handle w))]
                ++ [Handle.EAssignPlayHandle ph]).
      rewrite app_assoc, !Handle_filter_snoc. simpl. lia.
  - unfold Handle.interrupt. destruct (Handle.interrupted w) eqn:Hi; [exact HI|].
    unfold Handle.set_interrupt_signal, Handle.forward_interrupt, Handle.log_debug.
    unfold Handle.OneShotInv, Handle.resolutions, Handle.forwards, Handle.interrupted.
    simpl.
    destruct (Handle.playHandle (Handle.handle w)); simpl;
      rewrite !Handle_filter_snoc; simpl; lia.
Qed.

Lemma Handle_interrupted_calls (w : World') (cs : list Handle.Call) :
  Handle.interrupted (calls' w cs) = true ↔
  Handle.interrupted w = true ∨ Handle.CallInterrupt ∈ cs.
Proof.
  revert w. induction cs as [|c cs IH]; intros w.
  - split; [by left|]. intros [?|Hin]; [done|]. by apply elem_of_nil in Hin.
  - unfold Handle.calls in *. simpl. rewrite IH. rewrite elem_of_cons.
    destruct c; simpl.
    + assert (Handle.interrupted (play' w).2 = Handle.interrupted w) as ->.
      { unfold Handle.play. destruct (Handle.interrupted w) eqn:Hi; [done|].
        by destruct (agentPlayout_play _ _) as [[e|ph] p']. }
      split; intros [?|?]; auto. destruct H as [?|?]; [done|auto].
    + split; [auto|]. intros _. left.
      unfold Handle.interrupt. destruct (Handle.interrupted w) eqn:Hi; done.
Qed.

(** X14: over any sequence of calls on a handle the interrupt signal is
    resolved at most once, and exactly once when [interrupt()] is among the
    calls; the interruption is forwarded to a playout handle at most
    once. *)
Theorem interrupt_signal_is_one_shot
    (id : string) (src : SpeechSource) (p : Playout) (cs : list Handle.Call) :
  let w := calls' (Handle.new id src p) cs in
  (Handle.CallInterrupt ∈ cs → Handle.interrupted w = true ∧ Handle.resolutions w = 1) ∧
  (Handle.CallInterrupt ∉ cs → Handle.interrupted w = false ∧ Handle.resolutions w = 0) ∧
  Handle.forwards w ≤ 1.
Proof.
  intros w.
  assert (Handle.OneShotInv w) as [Hres Hfw].
  { apply Handle_calls_invariant; [apply Handle_oneshot_call|]. by split. }
  pose proof (Handle_interrupted_calls (Handle.new id src p) cs) as Hiff.
  fold w in Hiff. split; [|split].
  - intros Hin. assert (Handle.interrupted w = true) as Hi by (apply Hiff; auto).
    by rewrite Hi in Hres.
  - intros Hnin. assert (Handle.interrupted w = false) as Hi.
    { apply not_true_is_false. intros Hi. apply Hiff in Hi as [Hi|Hi]; done. }
    by rewrite Hi in Hres.
  - destruct (Handle.interrupted w); lia.
Qed.

End HandleCalls.

Lemma interrupt_signal_is_one_shot_witness :
  let w := Handle.calls Handle.simple_play Handle.simple_interrupt
             (Handle.new "speech-1" (SrcString "hi") [])
             [Handle.CallPlay; Handle.CallInterrupt; Handle.CallInterrupt;
              Handle.CallPlay; Handle.CallInterrupt] in
  Handle.interrupted w = true ∧ Handle.resolutions w = 1 ∧ Handle.forwards w = 1.
Proof.
  intros w.
  destruct (interrupt_signal_is_one_shot Handle.simple_play Handle.simple_interrupt
              "speech-1"%string (SrcString "hi") []
              [Handle.CallPlay; Handle.CallInterrupt; Handle.CallInterrupt;
               Handle.CallPlay; Handle.CallInterrupt]) as (Hin & _ & _).
  destruct Hin as [Hi Hr].
  { right. left. }
  split; [exact Hi|]. split; [exact Hr | reflexivity].
Defined.

Lemma interrupt_reaches_latest_playout_handle_witness :
  let w := Handle.calls Handle.simple_play Handle.simple_interrupt
             (Handle.new "speech-1" (SrcString "hi") [])
             [Handle.CallPlay; Handle.CallPlay; Handle.CallInterrupt] in
  Handle.EPlayHandleInterrupt 1 ∈ Handle.trace w ∧
  (Handle.EPlayHandleInterrupt 0 ∉ Handle.trace w) ∧
  Handle.playout w = [("speech-1"%string, false); ("speech-1"%string, true)] ∧
  Handle.last_assigned (Handle.trace w) = Some 1.
Proof.
  intros w.
  assert (Handle.EPlayHandleInterrupt 1 ∈ Handle.trace w) as Hin.
  { vm_compute. do 5 right. left. }
  split; [exact Hin|]. split; [|split; [reflexivity|]].
  - vm_compute. intros H. repeat (apply elem_of_cons in H as [H|H]; [discriminate|]).
    by apply elem_of_nil in H.
  - exact (proj2 (interrupt_reaches_latest_playout_handle
                    Handle.simple_play Handle.simple_interrupt
                    "speech-1"%string (SrcString "hi") []
                    [Handle.CallPlay; Handle.CallPlay; Handle.CallInterrupt] 1) Hin).
Defined.


Section HandleAccessors.

Context {Playout : Type}.
Variable agentPlayout_play : string → Playout → (Err + Handle.PlayoutHandle) * Playout.
Variable playHandle_interrupt : Handle.PlayoutHandle → Playout → Playout.

Abbreviation World'' := (@Handle.World Playout).
Abbreviation play'' := (Handle.play agentPlayout_play).
Abbreviation call'' := (Handle.call agentPlayout_play playHandle_interrupt).
Abbreviation calls'' := (Handle.calls agentPlayout_play playHandle_interrupt).
Abbreviation successful_plays'' :=
  (Handle.successful_plays agentPlayout_play playHandle_interrupt).

Lemma Handle_call_fields (w : World'') (c : Handle.Call) :
  Handle.speechId (Handle.handle (call'' w c)) = Handle.speechId (Handle.handle w) ∧
  Handle.ttsSource (Handle.handle (call'' w c)) = Handle.ttsSource (Handle.handle w) ∧
  Handle.validated (call'' w c) =
    Handle.validated w || (0 <? successful_plays'' w [c]).
Proof.
  destruct c; simpl.
  - unfold Handle.play. destruct (Handle.interrupted w); simpl;
      [by rewrite orb_false_r|].
    destruct (agentPlayout_play _ _) as [[e|ph] p']; simpl;
      unfold Handle.validated; simpl;
      (repeat split; try done);
      destruct (Handle.playHandle (Handle.handle w)); done.
  - unfold Handle.interrupt. destruct (Handle.interrupted w); simpl;
      [by rewrite orb_false_r|].
    unfold Handle.validated, Handle.forward_interrupt. simpl.
    destruct (Handle.playHandle (Handle.handle w)) eqn:Hph; simpl; by rewrite Hph.
Qed.

(** X15: the identity of a handle is fixed: no call changes [speechId] or
    [ttsSource].  [validated] tells whether a call to [play()] has succeeded:
    it is false on a new handle, becomes true with the first [play()] that
    does not throw, and is never reset, by [interrupt()] no more than by a
    [play()] that throws. *)
Theorem handle_accessors_follow_calls
    (id : string) (src : SpeechSource) (p : Playout) (w : World'')
    (cs : list Handle.Call) :
  Handle.speechId (Handle.handle (calls'' w cs)) = Handle.speechId (Handle.handle w) ∧
  Handle.ttsSource (Handle.handle (calls'' w cs)) = Handle.ttsSource (Handle.handle w) ∧
  (Handle.validated w = true → Handle.validated (calls'' w cs) = true) ∧
  (Handle.validated (calls'' (Handle.new id src p) cs) = true ↔
   0 < successful_plays'' (Handle.new id src p) cs).
Proof.
  assert (∀ w0 : World'',
            Handle.speechId (Handle.handle (calls'' w0 cs))
              = Handle.speechId (Handle.handle w0) ∧
            Handle.ttsSource (Handle.handle (calls'' w0 cs))
              = Handle.ttsSource (Handle.handle w0) ∧
            Handle.validated (calls'' w0 cs) =
              Handle.validated w0 || (0 <? successful_plays'' w0 cs)) as Hgen.
  { induction cs as [|c cs IH]; intros w0.
    - simpl. by rewrite orb_false_r.
    - unfold Handle.calls in *. cbn [foldl Handle.successful_plays].
      destruct (IH (call'' w0 c)) as (-> & -> & ->).
      destruct (Handle_call_fields w0 c) as (-> & -> & ->).
      split; [done|]. split; [done|].
      cbn [Handle.successful_plays]. rewrite Nat.add_0_r.
      destruct (Handle.validated w0); simpl; [done|].
      destruct (match c with
                | Handle.CallPlay => match (play'' w0).1 with inl _ => 0 | inr _ => 1 end
                | Handle.CallInterrupt => 0
                end) as [|[|n]]; simpl; done. }
  destruct (Hgen w) as (Hid & Hsrc & Hval).
  split; [done|]. split; [done|]. split.
  - intros Hv. by rewrite Hval, Hv.
  - destruct (Hgen (Handle.new id src p)) as (_ & _ & ->). simpl.
    rewrite Nat.ltb_lt. done.
Qed.

End HandleAccessors.

Lemma handle_accessors_follow_calls_witness :
  let w := Handle.new "speech-1" (SrcString "hi") [] in
  (Handle.validated
     (Handle.calls Handle.broken_play Handle.simple_interrupt w
        [Handle.CallPlay; Handle.CallPlay]) = false) ∧
  (Handle.validated (Handle.call Handle.simple_play Handle.simple_interrupt w Handle.CallPlay)
     = true ∧
   Handle.validated
     (Handle.calls Handle.simple_play Handle.simple_interrupt
        (Handle.call Handle.simple_play Handle.simple_interrupt w Handle.CallPlay)
        [Handle.CallInterrupt; Handle.CallPlay]) = true).
Proof.
  intros w. split; [reflexivity|]. split; [reflexivity|].
  exact (proj1 (proj2 (proj2 (handle_accessors_follow_calls
                                Handle.simple_play Handle.simple_interrupt
                                "speech-1"%string (SrcString "hi") []
                                (Handle.call Handle.simple_play Handle.simple_interrupt
                                   w Handle.CallPlay)
                                [Handle.CallInterrupt; Handle.CallPlay]))) eq_refl).
Defined.

(** ** Further properties of the output orchestrator *)

(** X16: when a task completes, its [finally] callback leaves in the list
    exactly the tasks that were launched before it.  The callback thus
    removes the completed task and no other if and only if that task is the
    last of the list, as it is whenever a single utterance is in flight. *)
Theorem completion_keeps_earlier_tasks
    (s : AgentOutput.State) (t : AgentOutput.TaskRef)
    (before after : list AgentOutput.TaskRef) :
  AgentOutput.tasks s = before ++ t :: after →
  t ∉ before →
  AgentOutput.tasks (AgentOutput.on_finally t s) = before ∧
  (AgentOutput.tasks (AgentOutput.on_finally t s) = before ++ after ↔ after = []).
Proof.
  intros Hl Hnotin. unfold AgentOutput.on_finally. simpl. rewrite Hl.
  rewrite AgentOutput_splice_indexOf by done. split; [done|]. split.
  - intros Heq. apply (f_equal length) in Heq. rewrite length_app in Heq.
    destruct after; [done|]. simpl in Heq. lia.
  - intros ->. by rewrite app_nil_r.
Qed.

Lemma completion_keeps_earlier_tasks_witness :
  ∃ s : AgentOutput.State,
    AgentOutput.run AgentOutput.new
      [AgentOutput.Synthesize (SrcString "one");
       AgentOutput.Synthesize SrcIterable;
       AgentOutput.Task 1 Supervisor.SourceSettled;
       AgentOutput.Task 1 (Supervisor.StreamAct (StreamTask.Text IterDone));
       AgentOutput.Task 1 Supervisor.RaceSettled] = Some s ∧
    AgentOutput.tasks s = [0; 1] ∧
    AgentOutput.step s (AgentOutput.Finally 1) = Some (AgentOutput.on_finally 1 s) ∧
    AgentOutput.tasks (AgentOutput.on_finally 1 s) = [0] ∧
    AgentOutput.live (AgentOutput.on_finally 1 s) 0 = true.
Proof.
  eexists. split; [vm_compute; reflexivity|]. split; [reflexivity|].
  split; [vm_compute; reflexivity|]. split; [|vm_compute; reflexivity].
  match goal with
  | |- AgentOutput.tasks (AgentOutput.on_finally 1 ?s0) = _ =>
      exact (proj1 (completion_keeps_earlier_tasks s0 1 [0] [] eq_refl
                      ltac:(by intros [?|Hin%elem_of_nil]%elem_of_cons)))
  end.
Defined.

(** X17: the [finally] callback of a task that is no longer in the list
    ([indexOf] answers -1, and [splice(-1)] deletes from the last index)
    removes the most recently launched task of the list instead. *)
Theorem completion_of_unlisted_task_removes_last
    (s : AgentOutput.State) (t : AgentOutput.TaskRef) :
  t ∉ AgentOutput.tasks s →
  AgentOutput.tasks (AgentOutput.on_finally t s) =
    take (length (AgentOutput.tasks s) - 1) (AgentOutput.tasks s).
Proof.
  intros Hnotin. unfold AgentOutput.on_finally, AgentOutput.indexOf. simpl.
  assert (list_find (λ x, x = t) (AgentOutput.tasks s) = None) as ->.
  { apply list_find_None, Forall_forall. intros x Hx ->. done. }
  unfold AgentOutput.splice. simpl. f_equal. lia.
Qed.

Lemma completion_of_unlisted_task_removes_last_witness :
  ∃ s : AgentOutput.State,
    AgentOutput.run AgentOutput.new
      [AgentOutput.Synthesize (SrcString "one");
       AgentOutput.Synthesize (SrcString "two");
       AgentOutput.Task 0 Supervisor.SourceSettled;
       AgentOutput.Task 1 Supervisor.SourceSettled;
       AgentOutput.Task 0 Supervisor.Interrupt;
       AgentOutput.Task 0 Supervisor.RaceSettled;
       AgentOutput.Finally 0;
       AgentOutput.Synthesize (SrcString "three");
       AgentOutput.Task 1 Supervisor.Interrupt;
       AgentOutput.Task 1 Supervisor.RaceSettled] = Some s ∧
    AgentOutput.tasks s = [2] ∧
    AgentOutput.step s (AgentOutput.Finally 1) = Some (AgentOutput.on_finally 1 s) ∧
    AgentOutput.tasks (AgentOutput.on_finally 1 s) = [] ∧
    AgentOutput.live (AgentOutput.on_finally 1 s) 2 = true.
Proof.
  eexists. split; [vm_compute; reflexivity|]. split; [reflexivity|].
  split; [vm_compute; reflexivity|]. split; [|vm_compute; reflexivity].
  match goal with
  | |- AgentOutput.tasks (AgentOutput.on_finally 1 ?s0) = _ =>
      exact (completion_of_unlisted_task_removes_last s0 1
               ltac:(by intros [?|Hin%elem_of_nil]%elem_of_cons))
  end.
Defined.




(** X19: cooperative cancellation never strands a task.  From any state a
    task can reach without a failure, cancelled or not, it completes as
    soon as its sources end and the queue takes its writes: the queue then
    holds the frames written so far followed by one Flush Marker, the
    writer is released, and the engine of an incremental-stream task has
    been sent its end-of-input. *)
Theorem tasks_always_run_to_completion :
  (∀ (text : string) (acts : list StringTask.Action) (s : StringTask.State),
     StringTask.run (StringTask.stringSynthesisTask text) acts = Some s →
     (∀ e, StringTask.pc s ≠ StringTask.Threw e) →
     ∃ s', StringTask.run s (StringTask.unwind s) = Some s' ∧
           StringTask.promise s' = Fulfilled ∧
           StringTask.writerLocked s' = false ∧
           StringTask.written s' =
             (Frame <$> frames_of (StringTask.written s)) ++ [FLUSH_SENTINEL]) ∧
  (∀ (acts : list StreamTask.Action) (s : StreamTask.State),
     StreamTask.run StreamTask.streamSynthesisTask acts = Some s →
     (∀ e, StreamTask.relay s ≠ StreamTask.RThrew e) →
     (∀ e, StreamTask.feed s ≠ StreamTask.FThrew e) →
     ∃ s', StreamTask.run s (StreamTask.unwind s) = Some s' ∧
           StreamTask.completed s' ∧
           StreamTask.writerLocked s' = false ∧
           StreamTask.written s' =
             (Frame <$> frames_of (StreamTask.written s)) ++ [FLUSH_SENTINEL] ∧
           StreamTask.engine s' =
             (pushText <$> StreamTask.chunks_before_cancel acts) ++ [flush; endInput]).
Proof.
  split.
  - intros text acts s Hrun Hok.
    apply StringTask_reachable_inv in Hrun as HI.
    apply StringTask_reachable_lock in Hrun as HL.
    destruct s as [c w e p pr l].
    unfold StringTask.Inv in HI. unfold StringTask.LockInv in HL. simpl in *.
    destruct p as [| | | |e0]; [| | | |by destruct (Hok e0)];
      destruct HI as [-> [fs ->]]; subst l;
      (eexists; split; [reflexivity|]; simpl);
      rewrite ?frames_of_snoc_flush, frames_of_frames; done.
  - intros acts s Hrun Hrok Hfok.
    pose proof (StreamTask_reachable_inv _ _ Hrun) as (Hiff & Hpend & HI).
    apply StreamTask_reachable_lock in Hrun as HL.
    apply (StreamTask_feed_running acts StreamTask.streamSynthesisTask s) in Hrun as He;
      [|done..].
    destruct s as [c w e r f pr l]. unfold StreamTask.LockInv in HL. simpl in *.
    destruct f as [| |e0]; [| |by destruct (Hfok e0)];
      (destruct r as [| | | |e1]; [| | | |by destruct (Hrok e1)]);
      destruct HI as [fs ->]; subst l; subst e;
      (eexists; split; [reflexivity|]; simpl);
      rewrite ?frames_of_snoc_flush, frames_of_frames, ?app_nil_r, <- ?app_assoc;
      (split; [split; [by (try apply Hiff)|done]|done]).
Qed.

Lemma tasks_always_run_to_completion_witness :
  (∃ s s' : StringTask.State,
     StringTask.run (StringTask.stringSynthesisTask "hi")
       [StringTask.Next (Yield (Audio 1)); StringTask.Cancel] = Some s ∧
     StringTask.run s (StringTask.unwind s) = Some s' ∧
     StringTask.promise s' = Fulfilled ∧
     StringTask.written s' = [Frame 1; FLUSH_SENTINEL]) ∧
  (∃ s s' : StreamTask.State,
     StreamTask.run StreamTask.streamSynthesisTask
       [StreamTask.Text (Yield "a"%string); StreamTask.Next (Yield (Audio 1));
        StreamTask.Cancel] = Some s ∧
     StreamTask.run s (StreamTask.unwind s) = Some s' ∧
     StreamTask.completed s' ∧
     StreamTask.written s' = [Frame 1; FLUSH_SENTINEL] ∧
     StreamTask.engine s' = [pushText "a"; flush; endInput]).
Proof.
  destruct tasks_always_run_to_completion as [Hstring Hstream].
  split.
  - destruct (Hstring "hi"%string
                [StringTask.Next (Yield (Audio 1)); StringTask.Cancel] _ eq_refl)
      as (s' & Hrun & Hp & _ & Hw); [by intros e|].
    eexists. exists s'. split; [reflexivity|]. split; [exact Hrun|].
    split; [exact Hp | exact Hw].
  - destruct (Hstream
                [StreamTask.Text (Yield "a"%string); StreamTask.Next (Yield (Audio 1));
                 StreamTask.Cancel] _ eq_refl)
      as (s' & Hrun & Hc & _ & Hw & He); [by intros e | by intros e|].
    eexists. exists s'. split; [reflexivity|]. split; [exact Hrun|].
    split; [exact Hc|]. split; [exact Hw | exact He].
Defined.


